(** * SpeechifyApp: the playback controller of [src/components/SpeechifyApp.tsx]

    The component keeps its React state in [useState] cells and two refs,
    talks to the browser's [speechSynthesis] engine and to a toast sink, and
    registers four callbacks on every utterance it creates.  The embedding
    below follows the source handler by handler:

    - JavaScript strings are sequences of UTF-16 code units ([JSString]);
    - JavaScript numbers are IEEE 754 binary64 values, given by the
      specification of the Standard Library ([JSNumber], over [spec_float]);
    - the handlers are functions on a [World]: the component's state and
      refs, the engine's voice list, and the chronological logs of the calls
      made on the engine and of the toasts raised. *)

From Stdlib Require Import ZArith List Bool String Ascii Lia Sorted.
From Stdlib Require Import SpecFloat.
From Stdlib Require QArith Qround.
Import ListNotations.

Local Open Scope Z_scope.

(* ------------------------------------------------------------------ *)
(** ** JavaScript strings *)

Module JSString.

(** A string is its sequence of UTF-16 code units. *)
Definition jsstring := list N.

(** A literal of the source, written with ASCII characters. *)
Fixpoint js (s : string) : jsstring :=
  match s with
  | EmptyString => []
  | String a s' => N_of_ascii a :: js s'
  end.

(** The code units that [String.prototype.trim] strips and that the
    regular expression class [\s] matches: ECMAScript's WhiteSpace and
    LineTerminator productions. *)
Definition is_ws (c : N) : bool :=
  ((9 <=? c) && (c <=? 13)         (* TAB, LF, VT, FF, CR *)
   || (c =? 32)                    (* SPACE *)
   || (c =? 160)                   (* NO-BREAK SPACE *)
   || (c =? 5760)                  (* U+1680 *)
   || ((8192 <=? c) && (c <=? 8202)) (* U+2000 .. U+200A *)
   || (c =? 8232) || (c =? 8233)   (* LINE / PARAGRAPH SEPARATOR *)
   || (c =? 8239)                  (* U+202F *)
   || (c =? 8287)                  (* U+205F *)
   || (c =? 12288)                 (* U+3000 *)
   || (c =? 65279))%N.             (* U+FEFF *)

Fixpoint trimStart (s : jsstring) : jsstring :=
  match s with
  | [] => []
  | c :: s' => if is_ws c then trimStart s' else s
  end.

Definition trimEnd (s : jsstring) : jsstring := rev (trimStart (rev s)).

(** [s.trim()] *)
Definition trim (s : jsstring) : jsstring := trimEnd (trimStart s).

(** Truthiness of a string: only the empty string is falsy. *)
Definition truthy (s : jsstring) : bool :=
  match s with [] => false | _ :: _ => true end.

(** [s.split(/\s+/)]: the pieces of [s] between maximal runs of white
    space.  [inws] tells that the scan is inside a run, [cur] is the piece
    being read (reversed).  A run at the start of [s] gives a first empty
    piece, a run at its end a last empty piece, and the empty string
    splits into one empty piece. *)
Fixpoint split_go (inws : bool) (cur : jsstring) (s : jsstring)
  : list jsstring :=
  match s with
  | [] => [rev cur]
  | c :: s' =>
      if is_ws c then
        if inws then split_go true cur s'
        else rev cur :: split_go true [] s'
      else split_go false (c :: cur) s'
  end.

Definition split_ws (s : jsstring) : list jsstring := split_go false [] s.

Definition eqb (a b : jsstring) : bool :=
  if list_eq_dec N.eq_dec a b then true else false.

(** [s.startsWith(p)] *)
Fixpoint startsWith (s p : jsstring) : bool :=
  match p, s with
  | [], _ => true
  | _ :: _, [] => false
  | a :: p', b :: s' => (a =? b)%N && startsWith s' p'
  end.

End JSString.
Import JSString.

(* ------------------------------------------------------------------ *)
(** ** JavaScript numbers *)

Module JSNumber.

(** Binary64: 53 bits of precision, infinities at exponent 1024. *)
Definition prec : Z := 53.
Definition emax : Z := 1024.

Definition number := spec_float.

(** The number denoted by an integer (exact below [2^53]). *)
Definition of_Z (z : Z) : number := binary_normalize prec emax z 0 false.

(** [x / y] and [x * y] *)
Definition div (x y : number) : number := SFdiv prec emax x y.
Definition mul (x y : number) : number := SFmul prec emax x y.

(** [x <= y] and [x < y] *)
Definition leb (x y : number) : bool := SFleb x y.
Definition ltb (x y : number) : bool := SFltb x y.

(** The integer part, rounded towards minus infinity, of a finite number
    with a negative exponent. *)
Definition floorZ (s : bool) (m : positive) (e : Z) : Z :=
  Z.shiftl (cond_Zopp s (Zpos m)) e.

(** [Math.floor(x)]: numbers with a non-negative exponent are integers
    already; zeros, infinities and NaN are returned as they are. *)
Definition floor (x : number) : number :=
  match x with
  | S754_finite s m e => if 0 <=? e then x else of_Z (floorZ s m e)
  | _ => x
  end.

(** [parseFloat] on the strings of [speedOptions], the only values the
    speed picker can store; every one is a binary fraction. *)
Definition parseFloat (s : jsstring) : number :=
  if JSString.eqb s (js "0.5") then div (of_Z 1) (of_Z 2)
  else if JSString.eqb s (js "0.75") then div (of_Z 3) (of_Z 4)
  else if JSString.eqb s (js "1") then of_Z 1
  else if JSString.eqb s (js "1.25") then div (of_Z 5) (of_Z 4)
  else if JSString.eqb s (js "1.5") then div (of_Z 3) (of_Z 2)
  else if JSString.eqb s (js "1.75") then div (of_Z 7) (of_Z 4)
  else if JSString.eqb s (js "2") then of_Z 2
  else S754_nan.

End JSNumber.
Import JSNumber.

(* ------------------------------------------------------------------ *)
(** ** The component *)

(** [interface Voice] *)
Record Voice := mkVoice {
  name : jsstring;
  lang : jsstring;
  voiceURI : jsstring
}.

(** A [SpeechSynthesisVoice] of the engine, with the fields the source
    reads. *)
Record SynthVoice := mkSynthVoice {
  sv_name : jsstring;
  sv_lang : jsstring;
  sv_voiceURI : jsstring;
  sv_localService : bool
}.

(** A [SpeechSynthesisUtterance] as [handlePlay] configures it.  [u_text]
    is also the [text] that the utterance's callbacks close over. *)
Record Utterance := mkUtterance {
  u_text : jsstring;
  u_rate : number;
  u_volume : number;
  u_pitch : number;
  u_voice : option SynthVoice
}.

(** The [useState] cells and the two refs of [SpeechifyApp]. *)
Record Component := mkComponent {
  text : jsstring;
  isPlaying : bool;
  isPaused : bool;
  speed : jsstring;
  selectedVoice : jsstring;
  voices : list Voice;
  progress : number;
  currentPosition : number;
  synthRef : option Utterance;
  wordsRef : list jsstring
}.

Inductive EngineCall :=
| Cancel
| Speak (u : Utterance)
| Pause
| Resume.

Inductive Variant := VDefault | VDestructive.

Record Toast := mkToast {
  title : jsstring;
  description : jsstring;
  variant : Variant
}.

(** The component together with what surrounds it: the list that
    [speechSynthesis.getVoices()] returns, the calls made on
    [speechSynthesis] and the toasts raised, oldest first. *)
Record World := mkWorld {
  comp : Component;
  engineVoices : list SynthVoice;
  calls : list EngineCall;
  toasts : list Toast
}.

(** The state of the component on mount. *)
Definition initialComponent : Component :=
  {| text := []; isPlaying := false; isPaused := false; speed := js "1";
     selectedVoice := []; voices := []; progress := of_Z 0;
     currentPosition := of_Z 0; synthRef := None; wordsRef := [] |}.

Definition initialWorld (vs : list SynthVoice) : World :=
  {| comp := initialComponent; engineVoices := vs; calls := []; toasts := [] |}.

(** *** State setters and effects *)

Definition setText (v : jsstring) (c : Component) : Component :=
  mkComponent v (isPlaying c) (isPaused c) (speed c) (selectedVoice c)
    (voices c) (progress c) (currentPosition c) (synthRef c) (wordsRef c).
Definition setIsPlaying (v : bool) (c : Component) : Component :=
  mkComponent (text c) v (isPaused c) (speed c) (selectedVoice c)
    (voices c) (progress c) (currentPosition c) (synthRef c) (wordsRef c).
Definition setIsPaused (v : bool) (c : Component) : Component :=
  mkComponent (text c) (isPlaying c) v (speed c) (selectedVoice c)
    (voices c) (progress c) (currentPosition c) (synthRef c) (wordsRef c).
Definition setSpeed (v : jsstring) (c : Component) : Component :=
  mkComponent (text c) (isPlaying c) (isPaused c) v (selectedVoice c)
    (voices c) (progress c) (currentPosition c) (synthRef c) (wordsRef c).
Definition setSelectedVoice (v : jsstring) (c : Component) : Component :=
  mkComponent (text c) (isPlaying c) (isPaused c) (speed c) v
    (voices c) (progress c) (currentPosition c) (synthRef c) (wordsRef c).
Definition setVoices (v : list Voice) (c : Component) : Component :=
  mkComponent (text c) (isPlaying c) (isPaused c) (speed c) (selectedVoice c)
    v (progress c) (currentPosition c) (synthRef c) (wordsRef c).
Definition setProgress (v : number) (c : Component) : Component :=
  mkComponent (text c) (isPlaying c) (isPaused c) (speed c) (selectedVoice c)
    (voices c) v (currentPosition c) (synthRef c) (wordsRef c).
Definition setCurrentPosition (v : number) (c : Component) : Component :=
  mkComponent (text c) (isPlaying c) (isPaused c) (speed c) (selectedVoice c)
    (voices c) (progress c) v (synthRef c) (wordsRef c).
Definition setSynthRef (v : option Utterance) (c : Component) : Component :=
  mkComponent (text c) (isPlaying c) (isPaused c) (speed c) (selectedVoice c)
    (voices c) (progress c) (currentPosition c) v (wordsRef c).
Definition setWordsRef (v : list jsstring) (c : Component) : Component :=
  mkComponent (text c) (isPlaying c) (isPaused c) (speed c) (selectedVoice c)
    (voices c) (progress c) (currentPosition c) (synthRef c) v.

(** Apply a state update to the component of a world. *)
Definition upd (f : Component -> Component) (w : World) : World :=
  mkWorld (f (comp w)) (engineVoices w) (calls w) (toasts w).

(** A call on [speechSynthesis]. *)
Definition engine (k : EngineCall) (w : World) : World :=
  mkWorld (comp w) (engineVoices w) (calls w ++ [k]) (toasts w).

(** [toast({...})] *)
Definition toast (t : Toast) (w : World) : World :=
  mkWorld (comp w) (engineVoices w) (calls w) (toasts w ++ [t]).

(** Sequencing of effects, in program order. *)
Definition seq (f g : World -> World) : World -> World := fun w => g (f w).
Notation "f ;; g" := (seq f g) (at level 61, right associativity).
Definition skip : World -> World := fun w => w.

(** *** Voice enumeration *)

(** [loadVoices]: publish the engine's voices and, when none is selected,
    select the first English voice that is a local service. *)
Definition isDefaultCandidate (v : SynthVoice) : bool :=
  startsWith (sv_lang v) (js "en") && sv_localService v.

Definition loadVoices (w : World) : World :=
  let availableVoices := engineVoices w in
  let voiceList :=
    map (fun v => mkVoice (sv_name v) (sv_lang v) (sv_voiceURI v))
        availableVoices in
  let defaultVoice := find isDefaultCandidate availableVoices in
  (upd (setVoices voiceList) ;;
   match defaultVoice with
   | Some d =>
       if negb (truthy (selectedVoice (comp w)))
       then upd (setSelectedVoice (sv_voiceURI d))
       else skip
   | None => skip
   end) w.

(** *** The callbacks of an utterance *)

Definition toastNoText : Toast :=
  mkToast (js "No text to read") (js "Please enter some text first.")
    VDestructive.
Definition toastCompleted : Toast :=
  mkToast (js "Playback completed") (js "Finished reading the text.")
    VDefault.
Definition toastError : Toast :=
  mkToast (js "Playback error") (js "An error occurred during playback.")
    VDestructive.

(** [utterance.onstart] *)
Definition onstart (u : Utterance) : World -> World :=
  upd (setIsPlaying true) ;; upd (setCurrentPosition (of_Z 0)).

(** The length of a string or array, as a number. *)
Definition length_num {A} (l : list A) : number := of_Z (Z.of_nat (List.length l)).

(** [Math.floor(event.charIndex / (text.length / words.length))] *)
Definition wordIndex (txt : jsstring) (words : list jsstring) (charIndex : Z)
  : number :=
  floor (div (of_Z charIndex) (div (length_num txt) (length_num words))).

(** [(wordIndex / words.length) * 100] *)
Definition progressPercent (txt : jsstring) (words : list jsstring)
  (charIndex : Z) : number :=
  mul (div (wordIndex txt words charIndex) (length_num words)) (of_Z 100).

(** [utterance.onboundary]: [evname] is [event.name], [charIndex] is
    [event.charIndex]. *)
Definition onboundary (u : Utterance) (evname : jsstring) (charIndex : Z)
  (w : World) : World :=
  if JSString.eqb evname (js "word") then
    let words := wordsRef (comp w) in
    (upd (setProgress (progressPercent (u_text u) words charIndex)) ;;
     upd (setCurrentPosition (of_Z charIndex))) w
  else w.

(** [utterance.onend] *)
Definition onend (u : Utterance) : World -> World :=
  upd (setIsPlaying false) ;; upd (setIsPaused false) ;;
  upd (setProgress (of_Z 100)) ;; toast toastCompleted.

(** [utterance.onerror] *)
Definition onerror (u : Utterance) : World -> World :=
  upd (setIsPlaying false) ;; upd (setIsPaused false) ;; toast toastError.

(** *** The handlers *)

(** The utterance that [handlePlay] builds from the current state. *)
Definition mkPlayUtterance (w : World) : Utterance :=
  let c := comp w in
  {| u_text := text c;
     u_rate := parseFloat (speed c);
     u_volume := of_Z 1;
     u_pitch := of_Z 1;
     u_voice :=
       if truthy (selectedVoice c) then
         match find (fun v => JSString.eqb (voiceURI v) (selectedVoice c))
                    (voices c) with
         | Some voice =>
             find (fun v => JSString.eqb (sv_voiceURI v) (voiceURI voice))
                  (engineVoices w)
         | None => None
         end
       else None |}.

Definition handlePlay (w : World) : World :=
  let c := comp w in
  if negb (truthy (trim (text c))) then toast toastNoText w
  else if isPaused c then
    (engine Resume ;; upd (setIsPaused false) ;; upd (setIsPlaying true)) w
  else
    let utterance := mkPlayUtterance w in
    (engine Cancel ;;
     upd (setWordsRef (split_ws (text c))) ;;
     upd (setSynthRef (Some utterance)) ;;
     engine (Speak utterance)) w.

Definition handlePause (w : World) : World :=
  if isPlaying (comp w) then
    (engine Pause ;; upd (setIsPlaying false) ;; upd (setIsPaused true)) w
  else w.

Definition handleStop : World -> World :=
  engine Cancel ;; upd (setIsPlaying false) ;; upd (setIsPaused false) ;;
  upd (setProgress (of_Z 0)) ;; upd (setCurrentPosition (of_Z 0)).

(** *** The playback state of the specification *)

Inductive PlaybackState := Idle | Playing | Paused.

Definition playbackState (c : Component) : PlaybackState :=
  if isPlaying c then Playing
  else if isPaused c then Paused
  else Idle.

(** *** Events *)

(** What can happen to the mounted component: the user's actions, the
    engine's [voiceschanged] signal with the list it now returns, and the
    callbacks of an utterance. *)
Inductive Event :=
| EvSetText (s : jsstring)
| EvSetSpeed (s : jsstring)
| EvSetVoice (s : jsstring)
| EvPlay
| EvPause
| EvStop
| EvVoicesChanged (vs : list SynthVoice)
| EvStart (u : Utterance)
| EvBoundary (u : Utterance) (evname : jsstring) (charIndex : Z)
| EvEnd (u : Utterance)
| EvError (u : Utterance).

(** The engine's voice list changes and [loadVoices] runs. *)
Definition voicesChanged (vs : list SynthVoice) (w : World) : World :=
  loadVoices (mkWorld (comp w) vs (calls w) (toasts w)).

(** Picking a voice changes [selectedVoice], the dependency of the effect
    that owns [loadVoices], so the effect runs again. *)
Definition pickVoice (s : jsstring) : World -> World :=
  upd (setSelectedVoice s) ;; loadVoices.

Definition step (e : Event) : World -> World :=
  match e with
  | EvSetText s => upd (setText s)
  | EvSetSpeed s => upd (setSpeed s)
  | EvSetVoice s => pickVoice s
  | EvPlay => handlePlay
  | EvPause => handlePause
  | EvStop => handleStop
  | EvVoicesChanged vs => voicesChanged vs
  | EvStart u => onstart u
  | EvBoundary u evname charIndex => onboundary u evname charIndex
  | EvEnd u => onend u
  | EvError u => onerror u
  end.

Definition run (evs : list Event) (w : World) : World :=
  fold_left (fun w e => step e w) evs w.

Definition isStart (e : Event) : bool :=
  match e with EvStart _ => true | _ => false end.

(** The word-boundary events of an utterance at the given character
    indices, and the progress value observed after each of them. *)
Fixpoint progressTrace (u : Utterance) (idxs : list Z) (w : World)
  : list number :=
  match idxs with
  | [] => []
  | i :: rest =>
      let w' := onboundary u (js "word") i w in
      progress (comp w') :: progressTrace u rest w'
  end.

(** *** Worlds used as examples *)

Definition helloWorld : World :=
  upd (setText (js "Hello world")) (initialWorld []).

Definition helloUtterance : Utterance := mkPlayUtterance helloWorld.

(** "Hello world" is being read and the second word has been reached. *)
Definition helloHalfway : World :=
  run [EvPlay; EvStart helloUtterance;
       EvBoundary helloUtterance (js "word") 0;
       EvBoundary helloUtterance (js "word") 6] helloWorld.

Definition blankWorld : World :=
  upd (setText (js "   ")) (initialWorld []).

(** A blank text while the playback is paused. *)
Definition pausedBlankWorld : World :=
  run [EvPlay; EvStart helloUtterance; EvPause; EvSetText (js "  ")]
      helloWorld.

Definition enLocal : SynthVoice :=
  mkSynthVoice (js "Samantha") (js "en-US") (js "urn:samantha") true.
Definition enRemote : SynthVoice :=
  mkSynthVoice (js "Google UK") (js "en-GB") (js "urn:google-uk") false.
Definition frLocal : SynthVoice :=
  mkSynthVoice (js "Thomas") (js "fr-FR") (js "urn:thomas") true.
Definition enLocal2 : SynthVoice :=
  mkSynthVoice (js "Daniel") (js "en-GB") (js "urn:daniel") true.

(* ------------------------------------------------------------------ *)
(** ** Binary64 arithmetic: definitions used to reason about it *)

(** The integer nearest to [a / b], ties going to the even one. *)
Definition rne (a b : Z) : Z :=
  match 2 * (a mod b) ?= b with
  | Lt => a / b
  | Gt => a / b + 1
  | Eq => if Z.even (a / b) then a / b else a / b + 1
  end.

(** Where [a / b] lies between [a / b] rounded down and the next integer. *)
Definition loc_of (a b : Z) : location :=
  if a mod b =? 0 then loc_Exact else loc_Inexact (2 * (a mod b) ?= b).

(** The shift record that holds [a / b]: integer part, round bit and
    sticky bit. *)
Definition rec_of (a b : Z) : shr_record :=
  shr_record_of_loc (a / b) (loc_of a b).

(** A mantissa in [2^52, 2^53] at exponent [e], as a number. *)
Definition norm (m e : Z) : number :=
  if m =? 2 ^ 53 then S754_finite false (Z.to_pos (2 ^ 52)) (e + 1)
  else S754_finite false (Z.to_pos m) e.

(** Mantissa and exponent of a finite number. *)
Definition man (x : number) : Z :=
  match x with S754_finite _ m _ => Zpos m | _ => 0 end.
Definition expo (x : number) : Z :=
  match x with S754_finite _ _ e => e | _ => 0 end.

(** Positive normal numbers: positive sign and a mantissa of 53 bits. *)
Definition pnormal (x : number) : Prop :=
  match x with
  | S754_finite false m _ => 2 ^ 52 <= Zpos m < 2 ^ 53
  | _ => False
  end.

(** Positive zero or a positive normal number. *)
Definition nonneg (x : number) : Prop := x = S754_zero false \/ pnormal x.

(** The value of a finite number with exponent at least [-400], scaled by
    [2^400] so that it is an integer. *)
Definition val (x : number) : Z := man x * 2 ^ (expo x + 400).

(** The integer that an integral number stands for. *)
Definition intValue (x : number) : Z := val x / 2 ^ 400.

(** [x] is the fraction [num / den] up to the error of two roundings to
    nearest: [num / den] lies between [x * (1 - 2^-53)^2] and
    [x * (1 + 2^-53)^2]. *)
Definition within_two_roundings (x : number) (num den : Z) : Prop :=
  (2 ^ 53 - 1) ^ 2 * (val x * den) <= 2 ^ 106 * (num * 2 ^ 400)
  /\ 2 ^ 106 * (num * 2 ^ 400) <= (2 ^ 53 + 1) ^ 2 * (val x * den).

(** The two formulas of [onboundary] on the lengths themselves: text
    length [L], token count [n], character index [c]. *)
Definition wordIndexN (L n c : Z) : number :=
  floor (div (of_Z c) (div (of_Z L) (of_Z n))).
Definition progressN (L n c : Z) : number :=
  mul (div (wordIndexN L n c) (of_Z n)) (of_Z 100).

(** The word index as the specification writes it,
    [floor(charIndex / (textLength / tokenCount))], taken over the rational
    numbers: text length [L], token count [n], character index [c]. *)
Definition specWordIndex (L n c : Z) : Z :=
  Qround.Qfloor
    (QArith_base.Qdiv (QArith_base.inject_Z c)
       (QArith_base.Qdiv (QArith_base.inject_Z L) (QArith_base.inject_Z n))).

(** A text of 36 code units and 14 words; its word "j" starts at index
    18. *)
Definition alphabetText : jsstring :=
  js "a b c d e f g h i j k l m nnnnnnnnnn".

Definition alphabetWorld : World :=
  upd (setText alphabetText) (initialWorld []).

(* ------------------------------------------------------------------ *)
(** ** Properties of the handlers *)

Lemma trimStart_nil_iff (s : jsstring) :
  trimStart s = [] <-> forallb is_ws s = true.
Proof.
  induction s as [|c s IH]; simpl.
  - tauto.
  - destruct (is_ws c); simpl.
    + exact IH.
    + split; discriminate.
Qed.

(** A string trims to the empty string exactly when all its code units are
    white space. *)
Lemma trim_nil_iff (s : jsstring) :
  trim s = [] <-> forallb is_ws s = true.
Proof.
  unfold trim, trimEnd. split.
  - intros H.
    destruct (trimStart s) as [|c t] eqn:E.
    + now apply trimStart_nil_iff.
    + exfalso.
      assert (Hr : trimStart (rev (c :: t)) = []).
      { apply (f_equal (@rev N)) in H. now rewrite rev_involutive in H. }
      apply trimStart_nil_iff in Hr.
      rewrite forallb_forall in Hr.
      assert (Hc : is_ws c = true) by (apply Hr, in_rev; rewrite rev_involutive; now left).
      clear -E Hc. induction s as [|a s IH]; simpl in E; [discriminate|].
      destruct (is_ws a) eqn:Ea; [auto|]. congruence.
  - intros H. apply trimStart_nil_iff in H. now rewrite H.
Qed.

(** [handlePlay] with a blank text only raises the "No text to read"
    toast. *)
Lemma handlePlay_blank (w : World) :
  trim (text (comp w)) = [] -> handlePlay w = toast toastNoText w.
Proof.
  intros H. unfold handlePlay. now rewrite H.
Qed.

(** C3: with a text that trims to the empty string, play() leaves the whole
    component state (playback state, progress, speed, voice and the rest)
    as it was, makes no call on the speech engine, and raises exactly one
    notification. *)
Theorem play_blank_text_only_notifies (w : World) :
  trim (text (comp w)) = [] ->
  comp (handlePlay w) = comp w
  /\ playbackState (comp (handlePlay w)) = playbackState (comp w)
  /\ calls (handlePlay w) = calls w
  /\ toasts (handlePlay w) = toasts w ++ [toastNoText].
Proof.
  intros H. rewrite (handlePlay_blank w H). repeat split.
Qed.

Lemma play_blank_text_only_notifies_witness :
  trim (text (comp blankWorld)) = []
  /\ comp (handlePlay blankWorld) = comp blankWorld
  /\ playbackState (comp (handlePlay blankWorld)) = Idle
  /\ calls (handlePlay blankWorld) = []
  /\ toasts (handlePlay blankWorld) = [toastNoText].
Proof.
  split; [reflexivity|].
  exact (play_blank_text_only_notifies blankWorld eq_refl).
Defined.

(** C10: when play() is invoked in the Paused state with a text that has
    become blank, the empty-text guard wins over the resume path: one
    notification, no resume call on the engine, and the state stays
    Paused. *)
Theorem play_blank_text_while_paused (w : World) :
  playbackState (comp w) = Paused ->
  trim (text (comp w)) = [] ->
  playbackState (comp (handlePlay w)) = Paused
  /\ comp (handlePlay w) = comp w
  /\ calls (handlePlay w) = calls w
  /\ ~ In Resume (skipn (List.length (calls w)) (calls (handlePlay w)))
  /\ toasts (handlePlay w) = toasts w ++ [toastNoText].
Proof.
  intros HP H. rewrite (handlePlay_blank w H). simpl.
  repeat split; auto.
  rewrite skipn_all. auto.
Qed.

Lemma play_blank_text_while_paused_witness :
  playbackState (comp (handlePlay pausedBlankWorld)) = Paused
  /\ calls (handlePlay pausedBlankWorld) = calls pausedBlankWorld
  /\ toasts (handlePlay pausedBlankWorld)
     = toasts pausedBlankWorld ++ [toastNoText].
Proof.
  destruct (play_blank_text_while_paused pausedBlankWorld eq_refl eq_refl)
    as (H1 & _ & H2 & _ & H3).
  repeat split; assumption.
Defined.

(** C5: the end callback sets progress to exactly 100 whatever it was, makes
    the state Idle, and raises exactly one notification, the completion
    notice. *)
Theorem onend_completes (u : Utterance) (w : World) :
  progress (comp (onend u w)) = of_Z 100
  /\ playbackState (comp (onend u w)) = Idle
  /\ toasts (onend u w) = toasts w ++ [toastCompleted]
  /\ calls (onend u w) = calls w.
Proof.
  repeat split.
Qed.

(** C6: stop() requests a cancel on the engine, resets progress to exactly 0
    and makes the state Idle, from Playing, from Paused and from Idle alike;
    stopping again changes nothing in the component. *)
Theorem handleStop_resets (w : World) :
  calls (handleStop w) = calls w ++ [Cancel]
  /\ progress (comp (handleStop w)) = of_Z 0
  /\ playbackState (comp (handleStop w)) = Idle
  /\ comp (handleStop (handleStop w)) = comp (handleStop w)
  /\ toasts (handleStop w) = toasts w.
Proof.
  repeat split.
Qed.

(** C7: pause() takes Playing to Paused with one pause call on the engine,
    and does nothing at all when the state is not Playing; in particular
    right after a play() from Idle whose start callback has not fired. *)
Theorem handlePause_only_when_playing (w : World) :
  (playbackState (comp w) = Playing ->
     playbackState (comp (handlePause w)) = Paused
     /\ calls (handlePause w) = calls w ++ [Pause])
  /\ (playbackState (comp w) <> Playing -> handlePause w = w)
  /\ (playbackState (comp w) = Idle ->
      handlePause (handlePlay w) = handlePlay w
      /\ playbackState (comp (handlePause (handlePlay w))) = Idle).
Proof.
  unfold playbackState, handlePause.
  destruct w as [[txt playing paused sp sv vs pr pos sr wr] ev cl ts]; simpl.
  repeat split.
  - destruct playing; [reflexivity | destruct paused; discriminate].
  - destruct playing; [reflexivity | destruct paused; discriminate].
  - destruct playing; [congruence | reflexivity].
  - destruct playing; [discriminate|]. destruct paused; [discriminate|].
    unfold handlePlay; simpl.
    destruct (truthy (trim txt)); reflexivity.
  - destruct playing; [discriminate|]. destruct paused; [discriminate|].
    unfold handlePlay; simpl.
    destruct (truthy (trim txt)); reflexivity.
Qed.

Lemma handlePause_only_when_playing_witness :
  playbackState (comp helloWorld) = Idle
  /\ handlePause (handlePlay helloWorld) = handlePlay helloWorld
  /\ playbackState (comp (handlePause (handlePlay helloWorld))) = Idle
  /\ playbackState
       (comp (handlePause (onstart helloUtterance (handlePlay helloWorld))))
     = Paused.
Proof.
  destruct (handlePause_only_when_playing helloWorld) as (_ & _ & H).
  destruct (H eq_refl) as [H1 H2].
  destruct (handlePause_only_when_playing
              (onstart helloUtterance (handlePlay helloWorld))) as (H3 & _).
  destruct (H3 eq_refl) as [H4 _].
  repeat split; assumption.
Defined.

(** The fresh path of [handlePlay]: cancel, record the words and the
    utterance, speak. *)
Lemma handlePlay_fresh (w : World) :
  trim (text (comp w)) <> [] ->
  isPaused (comp w) = false ->
  handlePlay w =
  (engine Cancel ;;
   upd (setWordsRef (split_ws (text (comp w)))) ;;
   upd (setSynthRef (Some (mkPlayUtterance w))) ;;
   engine (Speak (mkPlayUtterance w))) w.
Proof.
  intros Ht Hp. unfold handlePlay. rewrite Hp.
  destruct (trim (text (comp w))); [congruence | reflexivity].
Qed.

(** [handlePlay] never turns an Idle component into a playing one. *)
Lemma handlePlay_idle (w : World) :
  playbackState (comp w) = Idle ->
  playbackState (comp (handlePlay w)) = Idle.
Proof.
  unfold playbackState, handlePlay.
  destruct w as [[txt playing paused sp sv vs pr pos sr wr] ev cl ts]; simpl.
  destruct playing; [discriminate|].
  destruct paused; [discriminate|].
  destruct (truthy (trim txt)); reflexivity.
Qed.

(** Every event other than a start callback keeps an Idle component Idle. *)
Lemma step_idle (e : Event) (w : World) :
  isStart e = false ->
  playbackState (comp w) = Idle ->
  playbackState (comp (step e w)) = Idle.
Proof.
  intros He Hw. destruct e; simpl in *; try discriminate.
  - exact Hw.
  - exact Hw.
  - unfold pickVoice, seq, loadVoices.
    destruct (find isDefaultCandidate _); simpl; [|exact Hw].
    destruct s; simpl; exact Hw.
  - now apply handlePlay_idle.
  - unfold handlePause.
    destruct (isPlaying (comp w)) eqn:E; [|exact Hw].
    unfold playbackState in Hw. rewrite E in Hw. discriminate.
  - reflexivity.
  - unfold voicesChanged, seq, loadVoices; simpl.
    destruct (find isDefaultCandidate vs); simpl; [|exact Hw].
    destruct (selectedVoice (comp w)); simpl; exact Hw.
  - unfold onboundary.
    destruct (JSString.eqb evname (js "word")); [exact Hw | exact Hw].
  - reflexivity.
  - reflexivity.
Qed.

Lemma run_idle (evs : list Event) (w : World) :
  forallb (fun e => negb (isStart e)) evs = true ->
  playbackState (comp w) = Idle ->
  playbackState (comp (run evs w)) = Idle.
Proof.
  revert w. induction evs as [|e evs IH]; simpl; intros w He Hw.
  - exact Hw.
  - apply andb_prop in He. destruct He as [He1 He2].
    apply IH; [exact He2|].
    apply step_idle; [|exact Hw].
    now destruct (isStart e).
Qed.

(** C4: play() with a non-blank text from a state that is not Paused
    returns with the playback state as it was and the utterance handed to
    the engine; starting from Idle the state is therefore not Playing when
    play() returns, it stays so whatever happens short of a start callback,
    and the start callback makes it Playing. *)
Theorem playing_only_after_start (w : World) :
  isPaused (comp w) = false ->
  trim (text (comp w)) <> [] ->
  playbackState (comp (handlePlay w)) = playbackState (comp w)
  /\ calls (handlePlay w) = calls w ++ [Cancel; Speak (mkPlayUtterance w)]
  /\ (playbackState (comp w) = Idle ->
      forall evs, forallb (fun e => negb (isStart e)) evs = true ->
        playbackState (comp (run evs (handlePlay w))) = Idle)
  /\ (forall evs u,
        playbackState (comp (onstart u (run evs (handlePlay w)))) = Playing).
Proof.
  intros Hp Ht. rewrite (handlePlay_fresh w Ht Hp).
  repeat split.
  - unfold seq, engine; simpl. now rewrite <- app_assoc.
  - intros Hi evs Hevs. apply run_idle; [exact Hevs | exact Hi].
Qed.

Lemma playing_only_after_start_witness :
  playbackState (comp (handlePlay helloWorld)) = Idle
  /\ playbackState
       (comp (run [EvPause; EvSetSpeed (js "2");
                   EvBoundary helloUtterance (js "word") 0]
                  (handlePlay helloWorld))) = Idle
  /\ playbackState
       (comp (onstart helloUtterance (run [] (handlePlay helloWorld))))
     = Playing.
Proof.
  assert (Ht : trim (text (comp helloWorld)) <> []) by discriminate.
  destruct (playing_only_after_start helloWorld eq_refl Ht)
    as (H1 & _ & H2 & H3).
  split; [exact H1|]. split.
  - apply H2; reflexivity.
  - apply H3.
Defined.

(** What the error callback does: it makes the state Idle, raises exactly
    one notification, the error notice, and makes no call on the engine
    (nothing is retried); it writes neither progress nor position; and a
    later play() does not resume, it speaks the whole text again. *)
Lemma onerror_forces_idle (u : Utterance) (w : World) :
  playbackState (comp (onerror u w)) = Idle
  /\ toasts (onerror u w) = toasts w ++ [toastError]
  /\ calls (onerror u w) = calls w
  /\ progress (comp (onerror u w)) = progress (comp w)
  /\ currentPosition (comp (onerror u w)) = currentPosition (comp w)
  /\ (trim (text (comp w)) <> [] ->
      calls (handlePlay (onerror u w))
      = calls w ++ [Cancel; Speak (mkPlayUtterance (onerror u w))]
      /\ u_text (mkPlayUtterance (onerror u w)) = text (comp w)).
Proof.
  do 5 (split; [reflexivity|]).
  intros Ht.
  rewrite (handlePlay_fresh (onerror u w) Ht eq_refl).
  split; [|reflexivity].
  unfold seq, engine; simpl. now rewrite <- app_assoc.
Qed.

(** C8, the code at an error while "Hello world" is half read: the state
    becomes Idle, one error notice is raised and nothing is asked of the
    engine, but the progress made so far, 50, is still there afterwards,
    where stop() would leave 0 and the end callback 100. *)
Lemma onerror_keeps_progress :
  progress (comp helloHalfway) = of_Z 50
  /\ playbackState (comp (onerror helloUtterance helloHalfway)) = Idle
  /\ toasts (onerror helloUtterance helloHalfway)
     = toasts helloHalfway ++ [toastError]
  /\ calls (onerror helloUtterance helloHalfway) = calls helloHalfway
  /\ progress (comp (onerror helloUtterance helloHalfway)) = of_Z 50
  /\ progress (comp (onerror helloUtterance helloHalfway)) <> of_Z 0
  /\ progress (comp (handleStop helloHalfway)) = of_Z 0
  /\ progress (comp (onend helloUtterance helloHalfway)) = of_Z 100.
Proof.
  do 5 (split; [reflexivity|]).
  split; [vm_compute; discriminate|].
  split; reflexivity.
Qed.

(** What [loadVoices] does to the selection. *)
Lemma loadVoices_selectedVoice (w : World) :
  selectedVoice (comp (loadVoices w)) =
  match find isDefaultCandidate (engineVoices w) with
  | Some d => if truthy (selectedVoice (comp w)) then selectedVoice (comp w)
              else sv_voiceURI d
  | None => selectedVoice (comp w)
  end.
Proof.
  unfold loadVoices, seq.
  destruct (find isDefaultCandidate (engineVoices w)); [|reflexivity].
  destruct (truthy (selectedVoice (comp w))); reflexivity.
Qed.

Lemma find_first {A} (f : A -> bool) (pre : list A) (d : A) (post : list A) :
  forallb (fun v => negb (f v)) pre = true -> f d = true ->
  find f (pre ++ d :: post) = Some d.
Proof.
  induction pre as [|a pre IH]; simpl; intros Hpre Hd.
  - now rewrite Hd.
  - apply andb_prop in Hpre. destruct Hpre as [Ha Hpre].
    destruct (f a); [discriminate|]. now apply IH.
Qed.

(** C9: on a refresh of the voice list, with no voice selected the first
    voice whose language tag starts with "en" and that is a local service
    becomes the selection; with a voice selected the selection is left as it
    is, so a second refresh does not choose again. *)
Theorem loadVoices_default_selection (w : World) (vs : list SynthVoice) :
  voices (comp (voicesChanged vs w))
    = map (fun v => mkVoice (sv_name v) (sv_lang v) (sv_voiceURI v)) vs
  /\ (forall pre d post,
        selectedVoice (comp w) = [] ->
        vs = pre ++ d :: post ->
        forallb (fun v => negb (isDefaultCandidate v)) pre = true ->
        startsWith (sv_lang d) (js "en") = true ->
        sv_localService d = true ->
        selectedVoice (comp (voicesChanged vs w)) = sv_voiceURI d
        /\ (sv_voiceURI d <> [] ->
            forall vs2,
              selectedVoice (comp (voicesChanged vs2 (voicesChanged vs w)))
              = sv_voiceURI d))
  /\ (selectedVoice (comp w) = [] ->
      forallb (fun v => negb (isDefaultCandidate v)) vs = true ->
      selectedVoice (comp (voicesChanged vs w)) = [])
  /\ (selectedVoice (comp w) <> [] ->
      selectedVoice (comp (voicesChanged vs w)) = selectedVoice (comp w)).
Proof.
  assert (Hkeep : forall w' vs', selectedVoice (comp w') <> [] ->
            selectedVoice (comp (voicesChanged vs' w'))
            = selectedVoice (comp w')).
  { intros w' vs' Hs. unfold voicesChanged.
    rewrite loadVoices_selectedVoice; simpl.
    destruct (find isDefaultCandidate vs'); [|reflexivity].
    destruct (selectedVoice (comp w')); [congruence | reflexivity]. }
  split; [|split; [|split]].
  - unfold voicesChanged, loadVoices, seq; simpl.
    destruct (find isDefaultCandidate vs); [|reflexivity].
    destruct (selectedVoice (comp w)); reflexivity.
  - intros pre d post Hs Hvs Hpre Hen Hloc.
    assert (Hd : isDefaultCandidate d = true).
    { unfold isDefaultCandidate. now rewrite Hen, Hloc. }
    assert (H1 : selectedVoice (comp (voicesChanged vs w)) = sv_voiceURI d).
    { unfold voicesChanged. rewrite loadVoices_selectedVoice; simpl.
      rewrite Hvs, (find_first _ pre d post Hpre Hd), Hs. reflexivity. }
    split; [exact H1|].
    intros Hne vs2. rewrite Hkeep; [exact H1 | now rewrite H1].
  - intros Hs Hnone. unfold voicesChanged.
    rewrite loadVoices_selectedVoice; simpl.
    destruct (find isDefaultCandidate vs) as [d|] eqn:E; [|exact Hs].
    apply find_some in E. destruct E as [Hin Hd].
    rewrite forallb_forall in Hnone. specialize (Hnone d Hin).
    rewrite Hd in Hnone. discriminate.
  - apply Hkeep.
Qed.

Lemma loadVoices_default_selection_witness :
  selectedVoice
    (comp (voicesChanged [frLocal; enRemote; enLocal; enLocal2]
             (initialWorld [])))
  = js "urn:samantha"
  /\ selectedVoice
       (comp (voicesChanged [enLocal2; enLocal]
                (voicesChanged [frLocal; enRemote; enLocal; enLocal2]
                   (initialWorld []))))
     = js "urn:samantha".
Proof.
  destruct (loadVoices_default_selection (initialWorld [])
              [frLocal; enRemote; enLocal; enLocal2]) as (_ & H & _ & _).
  destruct (H [frLocal; enRemote] enLocal [enLocal2]
              eq_refl eq_refl eq_refl eq_refl eq_refl) as [H1 H2].
  split; [exact H1|].
  apply H2. discriminate.
Defined.

(** After a fresh [handlePlay] the words are the white-space split of the
    text that the utterance carries. *)
Lemma handlePlay_words (w : World) :
  trim (text (comp w)) <> [] ->
  isPaused (comp w) = false ->
  wordsRef (comp (handlePlay w)) = split_ws (text (comp w))
  /\ u_text (mkPlayUtterance w) = text (comp w).
Proof.
  intros Ht Hp. rewrite (handlePlay_fresh w Ht Hp). split; reflexivity.
Qed.

(* ------------------------------------------------------------------ *)
(** ** Binary64 arithmetic: rounding, order and error bounds *)

Lemma digits2_pos_size (m : positive) : digits2_pos m = Pos.size m.
Proof. induction m; simpl; congruence. Qed.

Lemma Zdigits2_log2 (z : Z) : 0 < z -> Zdigits2 z = Z.log2 z + 1.
Proof.
  destruct z as [|p|p]; try lia. intros _. simpl.
  rewrite digits2_pos_size. destruct p; simpl; lia.
Qed.

Lemma Zdigits2_unique (z d : Z) :
  0 < d -> 2 ^ (d - 1) <= z < 2 ^ d -> Zdigits2 z = d.
Proof.
  intros Hd Hz.
  assert (0 < z) by (pose proof (Z.pow_pos_nonneg 2 (d - 1)); lia).
  rewrite Zdigits2_log2 by assumption.
  rewrite (Z.log2_unique z (d - 1)); try lia.
  replace (Z.succ (d - 1)) with d by lia. exact Hz.
Qed.

Lemma Zdigits2_bounds (z : Z) :
  0 < z -> 2 ^ (Zdigits2 z - 1) <= z < 2 ^ Zdigits2 z.
Proof.
  intros Hz. rewrite Zdigits2_log2 by assumption.
  replace (Z.log2 z + 1 - 1) with (Z.log2 z) by lia.
  apply Z.log2_spec. exact Hz.
Qed.

(** *** Shifting a located quotient *)

Lemma shr_1_nonneg (m : Z) (r s : bool) :
  0 <= m ->
  shr_1 (Build_shr_record m r s)
  = Build_shr_record (m / 2) (Z.odd m) (r || s).
Proof.
  intros Hm. destruct m as [|p|p]; try lia.
  - reflexivity.
  - destruct p as [p|p|]; simpl shr_1.
    + f_equal. rewrite Pos2Z.inj_xI. 
      apply Z.div_unique with (r := 1); lia.
    + f_equal. rewrite Pos2Z.inj_xO.
      apply Z.div_unique with (r := 0); lia.
    + reflexivity.
Qed.

Lemma div_mod_double (a b : Z) :
  0 < b ->
  a / b = 2 * (a / (2 * b)) + (if a mod (2 * b) <? b then 0 else 1)
  /\ a mod b = (if a mod (2 * b) <? b then a mod (2 * b)
                else a mod (2 * b) - b).
Proof.
  intros Hb.
  pose proof (Z.div_mod a (2 * b) ltac:(lia)) as E.
  pose proof (Z.mod_pos_bound a (2 * b) ltac:(lia)) as B.
  destruct (Z.ltb_spec (a mod (2 * b)) b) as [H|H].
  - assert (Hq : a / b = 2 * (a / (2 * b))).
    { symmetry. apply Z.div_unique with (r := a mod (2 * b)); lia. }
    split; [lia|].
    symmetry. apply Z.mod_unique with (q := 2 * (a / (2 * b))); lia.
  - assert (Hq : a / b = 2 * (a / (2 * b)) + 1).
    { symmetry. apply Z.div_unique with (r := a mod (2 * b) - b); lia. }
    split; [lia|].
    symmetry. apply Z.mod_unique with (q := 2 * (a / (2 * b)) + 1); lia.
Qed.

Lemma half_double (q : Z) : (2 * q + 0) / 2 = q.
Proof. symmetry. apply Z.div_unique with (r := 0); lia. Qed.

Lemma half_double_1 (q : Z) : (2 * q + 1) / 2 = q.
Proof. symmetry. apply Z.div_unique with (r := 1); lia. Qed.

Lemma odd_double (q : Z) : Z.odd (2 * q + 0) = false.
Proof. rewrite Z.add_0_r, Z.odd_mul. reflexivity. Qed.

Lemma odd_double_1 (q : Z) : Z.odd (2 * q + 1) = true.
Proof. rewrite Z.add_comm, Z.odd_add_mul_2. reflexivity. Qed.

Lemma shr_1_rec_of (a b : Z) :
  0 <= a -> 0 < b -> shr_1 (rec_of a b) = rec_of a (2 * b).
Proof.
  intros Ha Hb.
  destruct (div_mod_double a b Hb) as [Hq Hr].
  pose proof (Z.mod_pos_bound a (2 * b) ltac:(lia)) as B.
  assert (Hq0 : 0 <= a / (2 * b)) by (apply Z.div_pos; lia).
  unfold rec_of, loc_of.
  rewrite Hq, Hr. clear Hq Hr.
  generalize dependent (a / (2 * b)). generalize dependent (a mod (2 * b)).
  intros r B q Hq0.
  destruct (Z.ltb_spec r b) as [H|H].
  - (* the dropped bit is 0 *)
    destruct (Z.eqb_spec r 0) as [Hr0|Hr0].
    + cbv beta iota delta [shr_record_of_loc].
      rewrite shr_1_nonneg by lia.
      now rewrite half_double, odd_double.
    + assert (Hlt : (2 * r ?= 2 * b) = Lt) by (apply Z.compare_lt_iff; lia).
      rewrite Hlt.
      destruct (2 * r ?= b) eqn:C; cbv beta iota delta [shr_record_of_loc];
        rewrite shr_1_nonneg by lia;
        now rewrite half_double, odd_double.
  - (* the dropped bit is 1 *)
    assert (Hne : (r =? 0) = false) by (apply Z.eqb_neq; lia).
    rewrite Hne.
    destruct (Z.eqb_spec (r - b) 0) as [Hr0|Hr0].
    + assert (Heq : (2 * r ?= 2 * b) = Eq) by (apply Z.compare_eq_iff; lia).
      rewrite Heq. cbv beta iota delta [shr_record_of_loc].
      rewrite shr_1_nonneg by lia.
      now rewrite half_double_1, odd_double_1.
    + assert (Hgt : (2 * r ?= 2 * b) = Gt) by (apply Z.compare_gt_iff; lia).
      rewrite Hgt.
      destruct (2 * (r - b) ?= b) eqn:C; cbv beta iota delta [shr_record_of_loc];
        rewrite shr_1_nonneg by lia;
        now rewrite half_double_1, odd_double_1.
Qed.

Lemma iter_pos_comm {A} (f : A -> A) (p : positive) (x : A) :
  iter_pos f p (f x) = f (iter_pos f p x).
Proof.
  revert x. induction p as [p IH|p IH|]; intros x; simpl.
  - now rewrite !IH.
  - now rewrite !IH.
  - reflexivity.
Qed.

Lemma iter_pos_succ {A} (f : A -> A) (p : positive) (x : A) :
  iter_pos f (Pos.succ p) x = iter_pos f p (f x).
Proof.
  revert x. induction p as [p IH|p IH|]; intros x; simpl.
  - rewrite !IH, !iter_pos_comm. reflexivity.
  - reflexivity.
  - reflexivity.
Qed.

Lemma iter_shr_1_rec_of (p : positive) (a b : Z) :
  0 <= a -> 0 < b ->
  iter_pos shr_1 p (rec_of a b) = rec_of a (b * 2 ^ Zpos p).
Proof.
  intros Ha. revert b.
  induction p as [|p IH] using Pos.peano_ind; intros b Hb.
  - simpl iter_pos. rewrite shr_1_rec_of by assumption.
    f_equal. lia.
  - rewrite iter_pos_succ, shr_1_rec_of by assumption.
    rewrite IH by lia. f_equal.
    rewrite Pos2Z.inj_succ, Z.pow_succ_r by lia. lia.
Qed.

Lemma shr_m_of_loc (m : Z) (l : location) :
  shr_m (shr_record_of_loc m l) = m.
Proof. destruct l as [|[]]; reflexivity. Qed.

Lemma loc_of_shr_record_of_loc (m : Z) (l : location) :
  loc_of_shr_record (shr_record_of_loc m l) = l.
Proof. destruct l as [|[]]; reflexivity. Qed.

Lemma round_nearest_even_rec_of (a b : Z) :
  0 < b ->
  round_nearest_even (shr_m (rec_of a b)) (loc_of_shr_record (rec_of a b))
  = rne a b.
Proof.
  intros Hb. unfold rec_of.
  rewrite shr_m_of_loc, loc_of_shr_record_of_loc.
  unfold loc_of, rne.
  pose proof (Z.mod_pos_bound a b Hb) as B.
  destruct (Z.eqb_spec (a mod b) 0) as [H0|H0].
  - rewrite H0. simpl round_nearest_even.
    assert (E : (2 * 0 ?= b) = Lt) by (apply Z.compare_lt_iff; lia).
    now rewrite E.
  - destruct (2 * (a mod b) ?= b); reflexivity.
Qed.

(** *** Rounding to nearest, ties to even *)

Lemma rne_spec (a b : Z) :
  0 < b ->
  ((2 * rne a b - 1) * b <= 2 * a <= (2 * rne a b + 1) * b)
  /\ (2 * a = (2 * rne a b - 1) * b -> Z.even (rne a b) = true)
  /\ (2 * a = (2 * rne a b + 1) * b -> Z.even (rne a b) = true).
Proof.
  intros Hb. unfold rne.
  pose proof (Z.div_mod a b ltac:(lia)) as E.
  pose proof (Z.mod_pos_bound a b Hb) as B.
  generalize dependent (a / b). generalize dependent (a mod b).
  intros r B q E.
  destruct (Z.compare_spec (2 * r) b) as [C|C|C].
  - destruct (Z.even q) eqn:Ev.
    + repeat split; try nia. intros _. exact Ev.
    + repeat split; try nia. intros _.
      rewrite Z.even_add, Ev. reflexivity.
  - repeat split; nia.
  - repeat split; nia.
Qed.

Lemma rne_mono (a1 b1 a2 b2 : Z) :
  0 < b1 -> 0 < b2 -> a1 * b2 <= a2 * b1 -> rne a1 b1 <= rne a2 b2.
Proof.
  intros H1 H2 Hc.
  destruct (rne_spec a1 b1 H1) as ((L1 & U1) & T1 & _).
  destruct (rne_spec a2 b2 H2) as ((L2 & U2) & _ & T2).
  destruct (Z_le_gt_dec (rne a1 b1) (rne a2 b2)) as [|Hgt]; [assumption|].
  exfalso.
  set (R1 := rne a1 b1) in *. set (R2 := rne a2 b2) in *.
  assert (P : 0 < b1 * b2) by nia.
  assert (C1 : (2 * R1 - 1) * (b1 * b2) <= 2 * (a1 * b2)) by nia.
  assert (C2 : 2 * (a2 * b1) <= (2 * R2 + 1) * (b1 * b2)) by nia.
  assert (R1 = R2 + 1) by nia.
  assert (E1 : 2 * a1 = (2 * R1 - 1) * b1) by nia.
  assert (E2 : 2 * a2 = (2 * R2 + 1) * b2) by nia.
  specialize (T1 E1). specialize (T2 E2).
  subst R1. rewrite H, Z.even_add, T2 in T1. discriminate.
Qed.

Lemma rne_exact (m b : Z) : 0 < b -> rne (m * b) b = m.
Proof.
  intros Hb. unfold rne.
  rewrite Z.mod_mul, Z.div_mul by lia.
  assert (E : (2 * 0 ?= b) = Lt) by (apply Z.compare_lt_iff; lia).
  now rewrite E.
Qed.

Lemma rne_ge (m a b : Z) : 0 < b -> m * b <= a -> m <= rne a b.
Proof.
  intros Hb H. rewrite <- (rne_exact m b Hb). apply rne_mono; nia.
Qed.

Lemma rne_le (m a b : Z) : 0 < b -> a <= m * b -> rne a b <= m.
Proof.
  intros Hb H. rewrite <- (rne_exact m b Hb). apply rne_mono; nia.
Qed.

(** *** The rounding step of every operation *)

Lemma fexp_normal (x : Z) : -1021 <= x -> fexp prec emax x = x - 53.
Proof.
  intros H. unfold fexp, emin, prec, emax. lia.
Qed.

Lemma shr_rec_of (a b e n : Z) :
  0 <= a -> 0 < b -> 0 <= n ->
  shr (rec_of a b) e n = (rec_of a (b * 2 ^ n), e + n).
Proof.
  intros Ha Hb Hn. destruct n as [|p|p]; try lia.
  - simpl. rewrite Z.mul_1_r, Z.add_0_r. reflexivity.
  - unfold shr. rewrite iter_shr_1_rec_of by assumption. reflexivity.
Qed.

Lemma binary_round_aux_rne (a b e : Z) :
  0 <= a -> 0 < b ->
  53 <= Zdigits2 (a / b) ->
  -1074 <= e + Zdigits2 (a / b) - 53 < 971 ->
  binary_round_aux prec emax false (a / b) e (loc_of a b)
  = norm (rne a (b * 2 ^ (Zdigits2 (a / b) - 53)))
         (e + (Zdigits2 (a / b) - 53))
  /\ 2 ^ 52 * (b * 2 ^ (Zdigits2 (a / b) - 53)) <= a
     < 2 ^ 53 * (b * 2 ^ (Zdigits2 (a / b) - 53)).
Proof.
  intros Ha Hb Hd He.
  assert (Hq : 0 < a / b).
  { assert (0 <= a / b) by (apply Z.div_pos; lia).
    destruct (Z.eq_dec (a / b) 0) as [E|E]; [|lia].
    rewrite E in Hd. simpl in Hd. lia. }
  set (d := Zdigits2 (a / b)) in *.
  pose proof (Zdigits2_bounds (a / b) Hq) as Bq. fold d in Bq.
  set (b' := b * 2 ^ (d - 53)).
  assert (Hp : 0 < 2 ^ (d - 53)) by (apply Z.pow_pos_nonneg; lia).
  assert (Hb' : 0 < b') by (unfold b'; nia).
  assert (Hpow : 2 ^ d = 2 ^ 53 * 2 ^ (d - 53)).
  { rewrite <- Z.pow_add_r by lia. f_equal. lia. }
  assert (Hpow' : 2 ^ (d - 1) = 2 ^ 52 * 2 ^ (d - 53)).
  { rewrite <- Z.pow_add_r by lia. f_equal. lia. }
  assert (Bab : 2 ^ 52 * b' <= a < 2 ^ 53 * b').
  { pose proof (Z.div_mod a b ltac:(lia)) as E.
    pose proof (Z.mod_pos_bound a b Hb) as B.
    unfold b'. split; nia. }
  split; [|exact Bab].
  unfold binary_round_aux, shr_fexp.
  fold d. fold (rec_of a b).
  rewrite fexp_normal by lia.
  replace (d + e - 53 - e) with (d - 53) by lia.
  rewrite shr_rec_of by lia. fold b'.
  rewrite round_nearest_even_rec_of by assumption.
  assert (Blo : 2 ^ 52 <= rne a b') by (apply rne_ge; lia).
  assert (Bhi : rne a b' <= 2 ^ 53) by (apply rne_le; lia).
  unfold norm.
  destruct (Z.eqb_spec (rne a b') (2 ^ 53)) as [Hm|Hm].
  - rewrite Hm.
    replace (Zdigits2 (2 ^ 53)) with 54 by reflexivity.
    rewrite fexp_normal by lia.
    replace (54 + (e + (d - 53)) - 53 - (e + (d - 53))) with 1 by lia.
    cbv beta iota delta [shr_record_of_loc shr iter_pos].
    rewrite shr_1_nonneg by lia.
    replace (2 ^ 53 / 2) with (2 ^ 52) by reflexivity.
    cbv beta iota delta [shr_m].
    replace (2 ^ 52) with (Zpos (Z.to_pos (2 ^ 52))) at 1 by reflexivity.
    cbv beta iota.
    replace (e + (d - 53) + 1 <=? emax - prec) with true
      by (symmetry; apply Z.leb_le; unfold emax, prec; lia).
    reflexivity.
  - rewrite (Zdigits2_unique (rne a b') 53) by lia.
    rewrite fexp_normal by lia.
    replace (53 + (e + (d - 53)) - 53 - (e + (d - 53))) with 0 by lia.
    cbv beta iota delta [shr_record_of_loc shr shr_m].
    destruct (rne a b') as [|p|p] eqn:Ep; try lia.
    replace (e + (d - 53) <=? emax - prec) with true
      by (symmetry; apply Z.leb_le; unfold emax, prec; lia).
    reflexivity.
Qed.

Lemma binary_round_aux_exact (m e : Z) :
  53 <= Zdigits2 m -> 0 < m ->
  -1074 <= e + Zdigits2 m - 53 < 971 ->
  binary_round_aux prec emax false m e loc_Exact
  = norm (rne m (2 ^ (Zdigits2 m - 53))) (e + (Zdigits2 m - 53))
  /\ 2 ^ 52 * 2 ^ (Zdigits2 m - 53) <= m < 2 ^ 53 * 2 ^ (Zdigits2 m - 53).
Proof.
  intros Hd Hm He.
  pose proof (binary_round_aux_rne m 1 e) as H.
  rewrite Z.div_1_r in H.
  replace (loc_of m 1) with loc_Exact in H
    by (unfold loc_of; now rewrite Z.mod_1_r).
  rewrite !Z.mul_1_l in H. apply H; lia.
Qed.

(** *** Order *)

Lemma leb_finite (m1 m2 : positive) (e1 e2 : Z) :
  leb (S754_finite false m1 e1) (S754_finite false m2 e2) = true
  <-> e1 < e2 \/ (e1 = e2 /\ Zpos m1 <= Zpos m2).
Proof.
  unfold leb, SFleb, SFcompare.
  destruct (Z.compare_spec e1 e2) as [E|E|E].
  - change (Pos.compare_cont Eq m1 m2) with (Pos.compare m1 m2).
    destruct (Pos.compare_spec m1 m2) as [C|C|C]; split; intros H;
      try discriminate; try reflexivity; try lia.
  - split; [intros _; lia | reflexivity].
  - split; [discriminate | lia].
Qed.

Lemma norm_pnormal (m e : Z) :
  2 ^ 52 <= m <= 2 ^ 53 ->
  pnormal (norm m e) /\ e <= expo (norm m e) <= e + 1.
Proof.
  intros H. unfold norm.
  destruct (Z.eqb_spec m (2 ^ 53)) as [E|E]; simpl.
  - lia.
  - rewrite Z2Pos.id by lia. lia.
Qed.

Lemma norm_mono (m1 e1 m2 e2 : Z) :
  2 ^ 52 <= m1 <= 2 ^ 53 -> 2 ^ 52 <= m2 <= 2 ^ 53 ->
  e1 < e2 \/ (e1 = e2 /\ m1 <= m2) ->
  leb (norm m1 e1) (norm m2 e2) = true.
Proof.
  intros H1 H2 H. unfold norm.
  destruct (Z.eqb_spec m1 (2 ^ 53)) as [E1|E1];
    destruct (Z.eqb_spec m2 (2 ^ 53)) as [E2|E2];
    apply leb_finite; rewrite ?Z2Pos.id by lia; lia.
Qed.

Lemma norm_rne_mono (a1 b1 e1 a2 b2 e2 : Z) :
  0 < b1 -> 0 < b2 ->
  2 ^ 52 * b1 <= a1 < 2 ^ 53 * b1 ->
  2 ^ 52 * b2 <= a2 < 2 ^ 53 * b2 ->
  e1 < e2 \/ (e1 = e2 /\ a1 * b2 <= a2 * b1) ->
  leb (norm (rne a1 b1) e1) (norm (rne a2 b2) e2) = true.
Proof.
  intros Hb1 Hb2 B1 B2 H.
  apply norm_mono.
  - split; [apply rne_ge | apply rne_le]; lia.
  - split; [apply rne_ge | apply rne_le]; lia.
  - destruct H as [H|[H1 H2]]; [now left | right].
    split; [assumption | now apply rne_mono].
Qed.

(** *** Integers as numbers *)

Lemma binary_round_aux_53 (m e : Z) :
  2 ^ 52 <= m < 2 ^ 53 -> -1074 <= e < 971 ->
  binary_round_aux prec emax false m e loc_Exact
  = S754_finite false (Z.to_pos m) e.
Proof.
  intros Hm He.
  assert (Hd : Zdigits2 m = 53) by (apply Zdigits2_unique; lia).
  destruct (binary_round_aux_exact m e) as [H _]; try lia.
  rewrite H, Hd. replace (53 - 53) with 0 by lia.
  change (2 ^ 0) with 1.
  rewrite <- (Z.mul_1_r m) at 1. rewrite rne_exact by lia.
  unfold norm. destruct (Z.eqb_spec m (2 ^ 53)); [lia|].
  now rewrite Z.add_0_r.
Qed.

Lemma iter_xO (m k : positive) :
  Zpos (Pos.iter xO m k) = Zpos m * 2 ^ Zpos k.
Proof.
  induction k as [|k IH] using Pos.peano_ind.
  - simpl. lia.
  - rewrite Pos.iter_succ, Pos2Z.inj_xO, IH.
    rewrite Pos2Z.inj_succ, Z.pow_succ_r by lia. lia.
Qed.

Lemma of_Z_0 : of_Z 0 = S754_zero false.
Proof. reflexivity. Qed.

Lemma of_Z_pos (z : Z) :
  0 < z < 2 ^ 53 ->
  of_Z z = S754_finite false (Z.to_pos (z * 2 ^ (53 - Zdigits2 z)))
             (Zdigits2 z - 53)
  /\ 2 ^ 52 <= z * 2 ^ (53 - Zdigits2 z) < 2 ^ 53
  /\ 1 <= Zdigits2 z <= 53.
Proof.
  intros Hz.
  pose proof (Zdigits2_bounds z ltac:(lia)) as B.
  assert (Hd : 1 <= Zdigits2 z <= 53).
  { rewrite Zdigits2_log2 by lia.
    pose proof (Z.log2_nonneg z).
    assert (Z.log2 z < 53) by (apply Z.log2_lt_pow2; lia). lia. }
  set (d := Zdigits2 z) in *.
  assert (Hp : 2 ^ 53 = 2 ^ d * 2 ^ (53 - d)).
  { rewrite <- Z.pow_add_r by lia. f_equal. lia. }
  assert (Hp' : 2 ^ 52 = 2 ^ (d - 1) * 2 ^ (53 - d)).
  { rewrite <- Z.pow_add_r by lia. f_equal. lia. }
  assert (Hpos : 0 < 2 ^ (53 - d)) by (apply Z.pow_pos_nonneg; lia).
  assert (Bm : 2 ^ 52 <= z * 2 ^ (53 - d) < 2 ^ 53) by nia.
  split; [|split; assumption].
  destruct z as [|p|p]; try lia.
  unfold of_Z, binary_normalize, binary_round.
  change (Zpos (digits2_pos p)) with (Zdigits2 (Zpos p)). fold d.
  rewrite fexp_normal by lia.
  unfold shl_align.
  replace (d + 0 - 53 - 0) with (d - 53) by lia.
  destruct (d - 53) as [|k|k] eqn:Ek; try lia.
  - replace (53 - d) with 0 in * by lia.
    rewrite binary_round_aux_53 by lia.
    change (2 ^ 0) with 1. now rewrite Z.mul_1_r.
  - replace (53 - d) with (Zpos k) in * by lia.
    rewrite iter_xO.
    rewrite binary_round_aux_53 by lia.
    f_equal. lia.
Qed.

Lemma of_Z_nonneg (z : Z) : 0 <= z < 2 ^ 53 -> nonneg (of_Z z).
Proof.
  intros Hz. destruct (Z.eq_dec z 0) as [->|Hn].
  - now left.
  - right. destruct (of_Z_pos z ltac:(lia)) as (E & B & _).
    rewrite E. unfold pnormal. rewrite Z2Pos.id by lia. exact B.
Qed.

Lemma leb_zero_nonneg (x : number) : nonneg x -> leb (S754_zero false) x = true.
Proof.
  intros [->|H]; [reflexivity|].
  destruct x as [| | |[] m e]; simpl in H; try contradiction. reflexivity.
Qed.

Lemma of_Z_mono (z1 z2 : Z) :
  0 <= z1 -> z1 <= z2 -> z2 < 2 ^ 53 -> leb (of_Z z1) (of_Z z2) = true.
Proof.
  intros H0 H12 H2.
  destruct (Z.eq_dec z1 0) as [->|Hn1].
  - apply leb_zero_nonneg, of_Z_nonneg. lia.
  - destruct (of_Z_pos z1 ltac:(lia)) as (E1 & B1 & D1).
    destruct (of_Z_pos z2 ltac:(lia)) as (E2 & B2 & D2).
    rewrite E1, E2. apply leb_finite. rewrite !Z2Pos.id by lia.
    assert (Hd : Zdigits2 z1 <= Zdigits2 z2).
    { rewrite !Zdigits2_log2 by lia.
      pose proof (Z.log2_le_mono z1 z2 H12). lia. }
    destruct (Z.eq_dec (Zdigits2 z1) (Zdigits2 z2)) as [Ed|Ed].
    + right. split; [lia|]. rewrite Ed.
      apply Z.mul_le_mono_nonneg_r; [|assumption].
      apply Z.pow_nonneg. lia.
    + left. lia.
Qed.

(** *** Division *)

Lemma new_location_loc_of (a b : Z) :
  0 < b -> new_location b (a mod b) = loc_of a b.
Proof.
  intros Hb. pose proof (Z.mod_pos_bound a b Hb) as B.
  unfold new_location, loc_of, new_location_even, new_location_odd.
  generalize dependent (a mod b). intros r B.
  destruct (Z.even b) eqn:Ev; [reflexivity|].
  destruct (Z.eqb_spec r 0) as [E|E]; [reflexivity|].
  f_equal.
  assert (Hodd : Z.odd b = true) by (rewrite <- Z.negb_even, Ev; reflexivity).
  apply Z.odd_spec in Hodd. destruct Hodd as [k Hk].
  destruct (Z.compare_spec (2 * r + 1) b) as [C|C|C];
    symmetry; [apply Z.compare_lt_iff | apply Z.compare_lt_iff
               | apply Z.compare_gt_iff]; lia.
Qed.

Lemma SFdiv_core_binary_normal (mx my : positive) (ex ey : Z) :
  2 ^ 52 <= Zpos mx < 2 ^ 53 -> 2 ^ 52 <= Zpos my < 2 ^ 53 ->
  -1021 <= ex - ey ->
  SFdiv_core_binary prec emax (Zpos mx) ex (Zpos my) ey
  = ((Zpos mx * 2 ^ 53) / Zpos my, ex - ey - 53,
     loc_of (Zpos mx * 2 ^ 53) (Zpos my)).
Proof.
  intros Hx Hy He. unfold SFdiv_core_binary.
  rewrite (Zdigits2_unique (Zpos mx) 53) by lia.
  rewrite (Zdigits2_unique (Zpos my) 53) by lia.
  replace (53 + ex - (53 + ey)) with (ex - ey) by lia.
  rewrite fexp_normal by lia.
  rewrite Z.min_l by lia.
  replace (ex - ey - (ex - ey - 53)) with 53 by lia.
  cbv beta iota zeta.
  rewrite Z.shiftl_mul_pow2 by lia.
  rewrite <- (new_location_loc_of _ (Zpos my)) by lia.
  unfold Z.div, Z.modulo.
  destruct (Z.div_eucl (Zpos mx * 2 ^ 53) (Zpos my)) as [q r].
  reflexivity.
Qed.

(** The quotient of two positive normal numbers, away from overflow and
    underflow: the mantissa is the exact quotient of the mantissas, scaled
    to 53 bits and rounded to nearest even. *)
Lemma div_normal (mx my : positive) (ex ey : Z) :
  2 ^ 52 <= Zpos mx < 2 ^ 53 -> 2 ^ 52 <= Zpos my < 2 ^ 53 ->
  -1000 <= ex - ey <= 1000 ->
  exists s : Z,
    0 <= s <= 1
    /\ div (S754_finite false mx ex) (S754_finite false my ey)
       = norm (rne (Zpos mx * 2 ^ 53) (Zpos my * 2 ^ s)) (ex - ey - 53 + s)
    /\ 2 ^ 52 * (Zpos my * 2 ^ s) <= Zpos mx * 2 ^ 53
       < 2 ^ 53 * (Zpos my * 2 ^ s).
Proof.
  intros Hx Hy He.
  unfold div, SFdiv.
  rewrite SFdiv_core_binary_normal by lia.
  set (a := Zpos mx * 2 ^ 53). set (b := Zpos my).
  assert (Ha : 0 <= a) by (unfold a; lia).
  assert (Hb : 0 < b) by (unfold b; lia).
  pose proof (Z.div_mod a b ltac:(lia)) as E.
  pose proof (Z.mod_pos_bound a b Hb) as B.
  assert (Hq : 2 ^ 52 <= a / b < 2 ^ 54) by (unfold a, b in *; nia).
  assert (Hd : 53 <= Zdigits2 (a / b) <= 54).
  { rewrite Zdigits2_log2 by lia.
    assert (52 <= Z.log2 (a / b)) by (apply Z.log2_le_pow2; lia).
    assert (Z.log2 (a / b) < 54) by (apply Z.log2_lt_pow2; lia).
    lia. }
  exists (Zdigits2 (a / b) - 53).
  split; [lia|].
  destruct (binary_round_aux_rne a b (ex - ey - 53)) as [H1 H2]; try lia.
  simpl xorb. rewrite H1. split; [reflexivity | exact H2].
Qed.

Lemma div_pnormal (x y : number) :
  pnormal x -> pnormal y -> -1000 <= expo x - expo y <= 1000 ->
  pnormal (div x y)
  /\ expo x - expo y - 53 <= expo (div x y) <= expo x - expo y - 51.
Proof.
  intros Hx Hy He.
  destruct x as [| | |[] mx ex]; try contradiction.
  destruct y as [| | |[] my ey]; try contradiction.
  unfold pnormal in Hx, Hy. cbn [expo] in *.
  destruct (div_normal mx my ex ey Hx Hy He) as (s & Hs & E & B).
  rewrite E.
  assert (0 < 2 ^ s) by (apply Z.pow_pos_nonneg; lia).
  destruct (norm_pnormal (rne (Zpos mx * 2 ^ 53) (Zpos my * 2 ^ s))
              (ex - ey - 53 + s)) as [P Q].
  { split; [apply rne_ge | apply rne_le]; nia. }
  split; [exact P | lia].
Qed.

Lemma div_zero_l (y : number) :
  pnormal y -> div (S754_zero false) y = S754_zero false.
Proof.
  destruct y as [| | |[] my ey]; try contradiction. reflexivity.
Qed.

Lemma leb_pnormal_zero (x : number) :
  pnormal x -> leb x (S754_zero false) = false.
Proof.
  destruct x as [| | |[] m e]; try contradiction. reflexivity.
Qed.

(** Division by a positive normal number is monotone in the dividend. *)
Lemma div_mono (x1 x2 y : number) :
  nonneg x1 -> nonneg x2 -> pnormal y ->
  -1000 <= expo x1 - expo y <= 1000 ->
  -1000 <= expo x2 - expo y <= 1000 ->
  leb x1 x2 = true ->
  leb (div x1 y) (div x2 y) = true.
Proof.
  intros [->|H1] [->|H2] Hy He1 He2 Hle.
  - now rewrite div_zero_l.
  - rewrite div_zero_l by assumption.
    apply leb_zero_nonneg. right. now apply div_pnormal.
  - rewrite leb_pnormal_zero in Hle by assumption. discriminate.
  - destruct x1 as [| | |[] m1 e1]; try contradiction.
    destruct x2 as [| | |[] m2 e2]; try contradiction.
    destruct y as [| | |[] my ey]; try contradiction.
    unfold pnormal in H1, H2, Hy. cbn [expo] in *.
    apply leb_finite in Hle.
    destruct (div_normal m1 my e1 ey H1 Hy He1) as (s1 & Hs1 & E1 & B1).
    destruct (div_normal m2 my e2 ey H2 Hy He2) as (s2 & Hs2 & E2 & B2).
    rewrite E1, E2.
    assert (S1 : s1 = 0 \/ s1 = 1) by lia.
    assert (S2 : s2 = 0 \/ s2 = 1) by lia.
    apply norm_rne_mono; try assumption.
    + destruct S1 as [-> | ->]; simpl; lia.
    + destruct S2 as [-> | ->]; simpl; lia.
    + destruct S1 as [-> | ->], S2 as [-> | ->];
        change (2 ^ 0) with 1 in *; change (2 ^ 1) with 2 in *; nia.
Qed.

Lemma div_self (x : number) : pnormal x -> div x x = of_Z 1.
Proof.
  intros Hx. destruct x as [| | |[] m e]; try contradiction.
  unfold pnormal in Hx.
  destruct (div_normal m m e e Hx Hx ltac:(lia)) as (s & Hs & E & B).
  assert (S1 : s = 0 \/ s = 1) by lia.
  destruct S1 as [-> | ->];
    change (2 ^ 0) with 1 in *; change (2 ^ 1) with 2 in *; [lia|].
  rewrite E.
  replace (Zpos m * 2 ^ 53) with (2 ^ 52 * (Zpos m * 2)) by lia.
  rewrite rne_exact by lia.
  replace (e - e - 53 + 1) with (-52) by lia. reflexivity.
Qed.

(** *** Multiplication *)

Lemma mul_normal (mx my : positive) (ex ey : Z) :
  2 ^ 52 <= Zpos mx < 2 ^ 53 -> 2 ^ 52 <= Zpos my < 2 ^ 53 ->
  -1000 <= ex + ey <= 900 ->
  exists s : Z,
    0 <= s <= 1
    /\ mul (S754_finite false mx ex) (S754_finite false my ey)
       = norm (rne (Zpos mx * Zpos my) (2 ^ 52 * 2 ^ s)) (ex + ey + 52 + s)
    /\ 2 ^ 52 * (2 ^ 52 * 2 ^ s) <= Zpos mx * Zpos my
       < 2 ^ 53 * (2 ^ 52 * 2 ^ s).
Proof.
  intros Hx Hy He.
  unfold mul, SFmul. simpl xorb. rewrite Pos2Z.inj_mul.
  set (a := Zpos mx * Zpos my).
  assert (Ha : 2 ^ 104 <= a < 2 ^ 106).
  { change (2 ^ 104) with (2 ^ 52 * 2 ^ 52).
    change (2 ^ 106) with (2 ^ 53 * 2 ^ 53). unfold a. nia. }
  assert (Hd : 105 <= Zdigits2 a <= 106).
  { rewrite Zdigits2_log2 by lia.
    assert (104 <= Z.log2 a) by (apply Z.log2_le_pow2; lia).
    assert (Z.log2 a < 106) by (apply Z.log2_lt_pow2; lia).
    lia. }
  exists (Zdigits2 a - 105).
  split; [lia|].
  destruct (binary_round_aux_exact a (ex + ey)) as [H1 H2]; try lia.
  assert (Hp : 2 ^ (Zdigits2 a - 53) = 2 ^ 52 * 2 ^ (Zdigits2 a - 105)).
  { rewrite <- Z.pow_add_r by lia. f_equal. lia. }
  rewrite H1, <- Hp. split; [f_equal; lia | exact H2].
Qed.

Lemma mul_pnormal (x y : number) :
  pnormal x -> pnormal y -> -1000 <= expo x + expo y <= 900 ->
  pnormal (mul x y)
  /\ expo x + expo y + 52 <= expo (mul x y) <= expo x + expo y + 54.
Proof.
  intros Hx Hy He.
  destruct x as [| | |[] mx ex]; try contradiction.
  destruct y as [| | |[] my ey]; try contradiction.
  unfold pnormal in Hx, Hy. cbn [expo] in *.
  destruct (mul_normal mx my ex ey Hx Hy He) as (s & Hs & E & B).
  rewrite E.
  assert (0 < 2 ^ s) by (apply Z.pow_pos_nonneg; lia).
  destruct (norm_pnormal (rne (Zpos mx * Zpos my) (2 ^ 52 * 2 ^ s))
              (ex + ey + 52 + s)) as [P Q].
  { split; [apply rne_ge | apply rne_le]; nia. }
  split; [exact P | lia].
Qed.

Lemma mul_zero_l (y : number) :
  pnormal y -> mul (S754_zero false) y = S754_zero false.
Proof.
  destruct y as [| | |[] my ey]; try contradiction. reflexivity.
Qed.

(** Multiplication by a positive normal number is monotone. *)
Lemma mul_mono (x1 x2 y : number) :
  nonneg x1 -> nonneg x2 -> pnormal y ->
  -1000 <= expo x1 + expo y <= 900 ->
  -1000 <= expo x2 + expo y <= 900 ->
  leb x1 x2 = true ->
  leb (mul x1 y) (mul x2 y) = true.
Proof.
  intros [->|H1] [->|H2] Hy He1 He2 Hle.
  - now rewrite mul_zero_l.
  - rewrite mul_zero_l by assumption.
    apply leb_zero_nonneg. right. now apply mul_pnormal.
  - rewrite leb_pnormal_zero in Hle by assumption. discriminate.
  - destruct x1 as [| | |[] m1 e1]; try contradiction.
    destruct x2 as [| | |[] m2 e2]; try contradiction.
    destruct y as [| | |[] my ey]; try contradiction.
    unfold pnormal in H1, H2, Hy. cbn [expo] in *.
    apply leb_finite in Hle.
    destruct (mul_normal m1 my e1 ey H1 Hy He1) as (s1 & Hs1 & E1 & B1).
    destruct (mul_normal m2 my e2 ey H2 Hy He2) as (s2 & Hs2 & E2 & B2).
    rewrite E1, E2.
    assert (S1 : s1 = 0 \/ s1 = 1) by lia.
    assert (S2 : s2 = 0 \/ s2 = 1) by lia.
    apply norm_rne_mono; try assumption.
    + destruct S1 as [-> | ->]; simpl; lia.
    + destruct S2 as [-> | ->]; simpl; lia.
    + destruct S1 as [-> | ->], S2 as [-> | ->];
        change (2 ^ 0) with 1 in *; change (2 ^ 1) with 2 in *; nia.
Qed.

(** *** Values *)

Lemma pow2_pos (n : Z) : 0 <= n -> 0 < 2 ^ n.
Proof. intros. apply Z.pow_pos_nonneg; lia. Qed.

Lemma pow2_add (a b : Z) : 0 <= a -> 0 <= b -> 2 ^ a * 2 ^ b = 2 ^ (a + b).
Proof. intros. now rewrite Z.pow_add_r. Qed.

Lemma val_lt (m1 m2 : positive) (e1 e2 : Z) :
  2 ^ 52 <= Zpos m1 < 2 ^ 53 -> 2 ^ 52 <= Zpos m2 < 2 ^ 53 ->
  -400 <= e1 -> -400 <= e2 ->
  e1 < e2 \/ (e1 = e2 /\ Zpos m1 < Zpos m2) ->
  val (S754_finite false m1 e1) < val (S754_finite false m2 e2).
Proof.
  intros H1 H2 L1 L2 H. unfold val. cbn [man expo].
  pose proof (pow2_pos (e1 + 400) ltac:(lia)) as P1.
  destruct H as [H|[-> H]].
  - assert (Hp : 2 * 2 ^ (e1 + 400) <= 2 ^ (e2 + 400)).
    { rewrite <- Z.pow_succ_r by lia. apply Z.pow_le_mono_r; lia. }
    nia.
  - nia.
Qed.

Lemma leb_val (x y : number) :
  nonneg x -> nonneg y -> -400 <= expo x -> -400 <= expo y ->
  leb x y = true <-> val x <= val y.
Proof.
  intros [->|Hx] [->|Hy] Lx Ly.
  - split; [intros _; reflexivity | reflexivity].
  - rewrite leb_zero_nonneg by (now right).
    destruct y as [| | |[] m e]; try contradiction.
    unfold val; cbn [man expo] in *.
    pose proof (pow2_pos (e + 400) ltac:(lia)). split; [nia | reflexivity].
  - rewrite leb_pnormal_zero by assumption.
    destruct x as [| | |[] m e]; try contradiction.
    unfold pnormal in Hx. unfold val; cbn [man expo] in *.
    pose proof (pow2_pos (e + 400) ltac:(lia)). split; [discriminate | nia].
  - destruct x as [| | |[] m1 e1]; try contradiction.
    destruct y as [| | |[] m2 e2]; try contradiction.
    unfold pnormal in Hx, Hy. cbn [expo] in *.
    rewrite leb_finite. split.
    + intros [H|[H1 H2]].
      * apply Z.lt_le_incl, val_lt; auto.
      * subst e2. unfold val; cbn [man expo].
        pose proof (pow2_pos (e1 + 400) ltac:(lia)). nia.
    + intros H.
      destruct (Z_lt_le_dec e2 e1) as [C|C].
      * pose proof (val_lt m2 m1 e2 e1 Hy Hx Ly Lx (or_introl C)). lia.
      * destruct (Z.eq_dec e1 e2) as [E|E]; [|lia].
        right. split; [assumption|].
        destruct (Z_lt_le_dec (Zpos m2) (Zpos m1)) as [D|D]; [|assumption].
        pose proof (val_lt m2 m1 e2 e1 Hy Hx Ly Lx
                      (or_intror (conj (eq_sym E) D))). lia.
Qed.

Lemma val_norm (m e : Z) :
  2 ^ 52 <= m <= 2 ^ 53 -> -400 <= e ->
  val (norm m e) = m * 2 ^ (e + 400).
Proof.
  intros Hm He. unfold norm, val.
  destruct (Z.eqb_spec m (2 ^ 53)) as [E|E]; cbn [man expo].
  - subst m. replace (e + 1 + 400) with (Z.succ (e + 400)) by lia.
    rewrite Z.pow_succ_r by lia.
    change (Zpos (Z.to_pos (2 ^ 52))) with (2 ^ 52).
    change (2 ^ 53) with (2 * 2 ^ 52). lia.
  - rewrite Z2Pos.id by lia. reflexivity.
Qed.

Lemma val_of_Z (z : Z) : 0 <= z < 2 ^ 53 -> val (of_Z z) = z * 2 ^ 400.
Proof.
  intros Hz. destruct (Z.eq_dec z 0) as [->|Hn]; [reflexivity|].
  destruct (of_Z_pos z ltac:(lia)) as (E & B & D).
  rewrite E. unfold val; cbn [man expo]. rewrite Z2Pos.id by lia.
  rewrite <- Z.mul_assoc, pow2_add by lia. do 2 f_equal. lia.
Qed.

Lemma expo_of_Z (z : Z) : 0 <= z < 2 ^ 53 -> -52 <= expo (of_Z z) <= 0.
Proof.
  intros Hz. destruct (Z.eq_dec z 0) as [->|Hn]; [simpl; lia|].
  destruct (of_Z_pos z ltac:(lia)) as (E & B & D).
  rewrite E. cbn [expo]. lia.
Qed.

Lemma of_Z_pnormal (z : Z) : 0 < z < 2 ^ 53 -> pnormal (of_Z z).
Proof.
  intros Hz. destruct (of_Z_nonneg z ltac:(lia)) as [E|H]; [|exact H].
  pose proof (val_of_Z z ltac:(lia)) as V. rewrite E in V.
  unfold val in V; simpl in V. lia.
Qed.

Lemma val_pos (x : number) : pnormal x -> -400 <= expo x -> 0 < val x.
Proof.
  intros Hx He. destruct x as [| | |[] m e]; try contradiction.
  unfold pnormal in Hx. unfold val; cbn [man expo] in *.
  pose proof (pow2_pos (e + 400) ltac:(lia)). nia.
Qed.

(** *** Floor *)

Lemma floor_nonneg (x : number) :
  nonneg x -> -400 <= expo x ->
  nonneg (floor x)
  /\ val (floor x) = val x / 2 ^ 400 * 2 ^ 400
  /\ -52 <= expo (floor x) <= Z.max 0 (expo x).
Proof.
  intros [->|Hx] He.
  - split; [now left|]. split; [reflexivity | simpl; lia].
  - destruct x as [| | |[] m e]; try contradiction.
    unfold pnormal in Hx. cbn [expo] in He.
    unfold floor.
    destruct (Z.leb_spec 0 e) as [H|H].
    + split; [now right|]. split; [|cbn [expo]; lia].
      unfold val; cbn [man expo].
      rewrite <- pow2_add, Z.mul_assoc by lia.
      rewrite Z.div_mul; [reflexivity|].
      pose proof (pow2_pos 400 ltac:(lia)). lia.
    + unfold floorZ, cond_Zopp.
      rewrite Z.shiftl_div_pow2 by lia.
      pose proof (pow2_pos (- e) ltac:(lia)) as Pe.
      assert (Hk : 0 <= Zpos m / 2 ^ (- e) < 2 ^ 53).
      { split; [apply Z.div_pos; lia|].
        apply Z.div_lt_upper_bound; nia. }
      split; [now apply of_Z_nonneg|].
      split; [|pose proof (expo_of_Z _ Hk); lia].
      rewrite val_of_Z by assumption.
      f_equal. unfold val; cbn [man expo].
      replace (2 ^ 400) with (2 ^ (- e) * 2 ^ (e + 400))
        by (rewrite pow2_add by lia; f_equal; lia).
      rewrite Z.div_mul_cancel_r; [reflexivity | lia |].
      pose proof (pow2_pos (e + 400) ltac:(lia)). lia.
Qed.

Lemma floor_mono (x y : number) :
  nonneg x -> nonneg y -> -400 <= expo x -> -400 <= expo y ->
  leb x y = true -> leb (floor x) (floor y) = true.
Proof.
  intros Hx Hy Lx Ly H.
  destruct (floor_nonneg x Hx Lx) as (Nx & Vx & Ex).
  destruct (floor_nonneg y Hy Ly) as (Ny & Vy & Ey).
  apply leb_val in H; try assumption.
  apply leb_val; try assumption; try lia.
  rewrite Vx, Vy.
  pose proof (pow2_pos 400 ltac:(lia)) as P.
  apply Z.mul_le_mono_nonneg_r; [lia|].
  apply Z.div_le_mono; lia.
Qed.

(** *** The error of a division *)

Lemma div_val (x y : number) :
  pnormal x -> pnormal y ->
  -150 <= expo x <= 150 -> -150 <= expo y <= 150 ->
  (2 ^ 53 - 1) * (val (div x y) * val y) <= 2 ^ 53 * (val x * 2 ^ 400)
  /\ 2 ^ 53 * (val x * 2 ^ 400) <= (2 ^ 53 + 1) * (val (div x y) * val y).
Proof.
  intros Hx Hy Ex Ey.
  destruct x as [| | |[] mx ex]; try contradiction.
  destruct y as [| | |[] my ey]; try contradiction.
  unfold pnormal in Hx, Hy. cbn [expo] in *.
  destruct (div_normal mx my ex ey Hx Hy ltac:(lia)) as (s & Hs & E & B).
  rewrite E. clear E.
  pose proof (pow2_pos s ltac:(lia)) as Ps.
  set (a := Zpos mx * 2 ^ 53) in *. set (b := Zpos my * 2 ^ s) in *.
  assert (Hb : 0 < b) by (unfold b; nia).
  assert (Blo : 2 ^ 52 <= rne a b) by (apply rne_ge; lia).
  assert (Bhi : rne a b <= 2 ^ 53) by (apply rne_le; lia).
  rewrite val_norm by lia.
  destruct (rne_spec a b Hb) as ((L & U) & _).
  set (M := rne a b) in *.
  unfold val; cbn [man expo].
  set (F := 2 ^ (ex + 747)).
  assert (PF : 0 < F) by (apply pow2_pos; lia).
  assert (E1 : M * 2 ^ (ex - ey - 53 + s + 400) * (Zpos my * 2 ^ (ey + 400))
               = M * b * F).
  { unfold b, F.
    replace (ex - ey - 53 + s + 400) with ((ex - ey + 347) + s) by lia.
    rewrite <- (pow2_add (ex - ey + 347) s) by lia.
    replace (ex + 747) with ((ex - ey + 347) + (ey + 400)) by lia.
    rewrite <- (pow2_add (ex - ey + 347) (ey + 400)) by lia.
    ring. }
  assert (E2 : Zpos mx * 2 ^ (ex + 400) * 2 ^ 400 = a * F).
  { unfold a, F.
    rewrite <- !Z.mul_assoc, !pow2_add by lia.
    do 2 f_equal. lia. }
  rewrite E1, E2.
  assert (A1 : (2 ^ 53 - 1) * (M * b) <= 2 ^ 53 * a) by nia.
  assert (A2 : 2 ^ 53 * a <= (2 ^ 53 + 1) * (M * b)) by nia.
  split; nia.
Qed.

Lemma div_nonneg (x y : number) :
  nonneg x -> pnormal y -> -1000 <= expo x - expo y <= 1000 ->
  nonneg (div x y)
  /\ Z.min 0 (expo x - expo y - 53) <= expo (div x y)
     <= Z.max 0 (expo x - expo y - 51).
Proof.
  intros [->|Hx] Hy He.
  - rewrite div_zero_l by assumption. split; [now left | simpl; lia].
  - destruct (div_pnormal x y Hx Hy He) as [P B].
    split; [now right | lia].
Qed.

Lemma mul_nonneg (x y : number) :
  nonneg x -> pnormal y -> -1000 <= expo x + expo y <= 900 ->
  nonneg (mul x y).
Proof.
  intros [->|Hx] Hy He.
  - rewrite mul_zero_l by assumption. now left.
  - right. now apply mul_pnormal.
Qed.


Section Progress.

Variables L n : Z.
Hypothesis HL : 1 <= L < 2 ^ 53.
Hypothesis Hn : 1 <= n < 2 ^ 52.

Lemma charsPerWord_pnormal : pnormal (div (of_Z L) (of_Z n)) /\ -105 <= expo (div (of_Z L) (of_Z n)) <= 1.
Proof.
  pose proof (expo_of_Z L ltac:(lia)).
  pose proof (expo_of_Z n ltac:(lia)).
  destruct (div_pnormal (of_Z L) (of_Z n)) as [P B];
    try (apply of_Z_pnormal; lia); try lia.
  split; [exact P | lia].
Qed.

Lemma quotient_nonneg (c : Z) :
  0 <= c < 2 ^ 53 ->
  nonneg (div (of_Z c) (div (of_Z L) (of_Z n))) /\ -106 <= expo (div (of_Z c) (div (of_Z L) (of_Z n))) <= 54.
Proof.
  intros Hc. destruct charsPerWord_pnormal as [Pd Ed].
  pose proof (expo_of_Z c Hc).
  destruct (div_nonneg (of_Z c) (div (of_Z L) (of_Z n))) as [P B];
    try (apply of_Z_nonneg; lia); try assumption; try lia.
  split; [exact P | lia].
Qed.

Lemma wordIndexN_nonneg (c : Z) :
  0 <= c < 2 ^ 53 ->
  nonneg (wordIndexN L n c) /\ -52 <= expo (wordIndexN L n c) <= 54.
Proof.
  intros Hc. destruct (quotient_nonneg c Hc) as [P B].
  destruct (floor_nonneg _ P ltac:(lia)) as (N & _ & E).
  split; [exact N | unfold wordIndexN; lia].
Qed.

Lemma wordIndexN_mono (c1 c2 : Z) :
  0 <= c1 -> c1 <= c2 -> c2 < 2 ^ 53 ->
  leb (wordIndexN L n c1) (wordIndexN L n c2) = true.
Proof.
  intros H0 H12 H2. destruct charsPerWord_pnormal as [Pd Ed].
  destruct (quotient_nonneg c1 ltac:(lia)) as [P1 B1].
  destruct (quotient_nonneg c2 ltac:(lia)) as [P2 B2].
  pose proof (expo_of_Z c1 ltac:(lia)).
  pose proof (expo_of_Z c2 ltac:(lia)).
  unfold wordIndexN.
  apply floor_mono; try assumption; try lia.
  apply div_mono; try assumption; try lia.
  - apply of_Z_nonneg; lia.
  - apply of_Z_nonneg; lia.
  - apply of_Z_mono; lia.
Qed.

Lemma ratio_nonneg (c : Z) :
  0 <= c < 2 ^ 53 ->
  nonneg (div (wordIndexN L n c) (of_Z n))
  /\ -105 <= expo (div (wordIndexN L n c) (of_Z n)) <= 55.
Proof.
  intros Hc. destruct (wordIndexN_nonneg c Hc) as [P B].
  pose proof (expo_of_Z n ltac:(lia)).
  destruct (div_nonneg (wordIndexN L n c) (of_Z n)) as [Q E];
    try assumption; try (apply of_Z_pnormal; lia); try lia.
  split; [exact Q | lia].
Qed.

Lemma hundred_pnormal : pnormal (of_Z 100) /\ expo (of_Z 100) = -46.
Proof. split; [apply of_Z_pnormal; lia | reflexivity]. Qed.

Lemma progressN_mono (c1 c2 : Z) :
  0 <= c1 -> c1 <= c2 -> c2 < 2 ^ 53 ->
  leb (progressN L n c1) (progressN L n c2) = true.
Proof.
  intros H0 H12 H2.
  destruct (wordIndexN_nonneg c1 ltac:(lia)) as [P1 B1].
  destruct (wordIndexN_nonneg c2 ltac:(lia)) as [P2 B2].
  destruct (ratio_nonneg c1 ltac:(lia)) as [Q1 E1].
  destruct (ratio_nonneg c2 ltac:(lia)) as [Q2 E2].
  destruct hundred_pnormal as [Ph Eh].
  pose proof (expo_of_Z n ltac:(lia)).
  unfold progressN.
  apply mul_mono; try assumption; try lia.
  apply div_mono; try assumption; try lia.
  - apply of_Z_pnormal; lia.
  - now apply wordIndexN_mono.
Qed.

Lemma progressN_lower (c : Z) :
  0 <= c < 2 ^ 53 -> leb (of_Z 0) (progressN L n c) = true.
Proof.
  intros Hc. destruct (ratio_nonneg c Hc) as [Q E].
  destruct hundred_pnormal as [Ph Eh].
  apply leb_zero_nonneg. unfold progressN.
  apply mul_nonneg; try assumption. lia.
Qed.

(** The quotient [charIndex / (textLength / tokenCount)] stays below
    [tokenCount + 1] for a character index inside the text. *)
Lemma quotient_bound (c : Z) :
  0 <= c < L -> val (div (of_Z c) (div (of_Z L) (of_Z n))) < (n + 1) * 2 ^ 400.
Proof.
  intros Hc.
  pose proof (pow2_pos 400 ltac:(lia)) as PS.
  destruct (Z.eq_dec c 0) as [->|Hc0].
  - destruct charsPerWord_pnormal as [Pd Ed].
    rewrite of_Z_0, div_zero_l by assumption.
    unfold val; simpl man. nia.
  - destruct charsPerWord_pnormal as [Pd Ed].
    pose proof (expo_of_Z c ltac:(lia)) as Ec.
    pose proof (expo_of_Z L ltac:(lia)) as EL.
    pose proof (expo_of_Z n ltac:(lia)) as En.
    destruct (div_val (of_Z L) (of_Z n)) as [_ A1];
      try (apply of_Z_pnormal; lia); try lia.
    destruct (div_val (of_Z c) (div (of_Z L) (of_Z n))) as [A2 _];
      try (apply of_Z_pnormal; lia); try assumption; try lia.
    rewrite !val_of_Z in * by lia.
    assert (PD : 0 < val (div (of_Z L) (of_Z n))) by (apply val_pos; [assumption | lia]).
    set (sc := 2 ^ 400) in *. set (D := val (div (of_Z L) (of_Z n))) in *.
    set (Q := val (div (of_Z c) (div (of_Z L) (of_Z n)))) in *.
    destruct (Z_lt_le_dec Q ((n + 1) * sc)) as [|Hge]; [assumption|].
    exfalso.
    assert (B1 : 2 ^ 53 * (L * sc) <= (2 ^ 53 + 1) * (D * n)) by nia.
    assert (B2 : (2 ^ 53 - 1) * ((n + 1) * sc * D) <= 2 ^ 53 * (c * sc * sc)).
    { assert ((n + 1) * sc * D <= Q * D) by nia. nia. }
    assert (B3 : (2 ^ 53 - 1) * ((n + 1) * D) <= 2 ^ 53 * (c * sc)) by nia.
    assert (B4 : 2 ^ 53 * (c * sc) <= 2 ^ 53 * (L * sc) - 2 ^ 53 * sc) by nia.
    assert (B5 : D * (2 ^ 53 - 1 - 2 * n) <= - (2 ^ 53 * sc)) by nia.
    assert (B6 : 0 <= D * (2 ^ 53 - 1 - 2 * n)) by nia.
    nia.
Qed.

Lemma wordIndexN_upper (c : Z) :
  0 <= c < L -> leb (wordIndexN L n c) (of_Z n) = true.
Proof.
  intros Hc.
  destruct (quotient_nonneg c ltac:(lia)) as [P B].
  destruct (floor_nonneg _ P ltac:(lia)) as (N & V & E).
  pose proof (expo_of_Z n ltac:(lia)) as En.
  pose proof (pow2_pos 400 ltac:(lia)) as PS.
  unfold wordIndexN.
  apply leb_val; try assumption; try lia.
  - apply of_Z_nonneg; lia.
  - rewrite V, val_of_Z by lia.
    apply Z.mul_le_mono_nonneg_r; [lia|].
    assert (val (div (of_Z c) (div (of_Z L) (of_Z n))) / 2 ^ 400 < n + 1); [|lia].
    apply Z.div_lt_upper_bound; [lia|].
    pose proof (quotient_bound c Hc). lia.
Qed.

Lemma progressN_upper (c : Z) :
  0 <= c < L -> leb (progressN L n c) (of_Z 100) = true.
Proof.
  intros Hc.
  destruct (wordIndexN_nonneg c ltac:(lia)) as [P B].
  destruct hundred_pnormal as [Ph Eh].
  pose proof (expo_of_Z n ltac:(lia)) as En.
  assert (Pn : pnormal (of_Z n)) by (apply of_Z_pnormal; lia).
  assert (H1 : leb (div (wordIndexN L n c) (of_Z n)) (of_Z 1) = true).
  { rewrite <- (div_self (of_Z n) Pn).
    apply div_mono; try assumption; try lia.
    - now right.
    - now apply wordIndexN_upper. }
  destruct (ratio_nonneg c ltac:(lia)) as [Q E].
  replace (of_Z 100) with (mul (of_Z 1) (of_Z 100)) by reflexivity.
  unfold progressN.
  apply mul_mono; try assumption; try lia.
  - apply of_Z_nonneg; lia.
  - replace (expo (of_Z 1)) with (-52) by reflexivity. lia.
Qed.

End Progress.

(** *** The error of a multiplication *)

Lemma mul_val (x y : number) :
  pnormal x -> pnormal y ->
  -150 <= expo x <= 150 -> -150 <= expo y <= 150 ->
  (2 ^ 53 - 1) * (val (mul x y) * 2 ^ 400) <= 2 ^ 53 * (val x * val y)
  /\ 2 ^ 53 * (val x * val y) <= (2 ^ 53 + 1) * (val (mul x y) * 2 ^ 400).
Proof.
  intros Hx Hy Ex Ey.
  destruct x as [| | |[] mx ex]; try contradiction.
  destruct y as [| | |[] my ey]; try contradiction.
  unfold pnormal in Hx, Hy. cbn [expo] in *.
  destruct (mul_normal mx my ex ey Hx Hy ltac:(lia)) as (s & Hs & E & B).
  rewrite E. clear E.
  pose proof (pow2_pos s ltac:(lia)) as Ps.
  set (a := Zpos mx * Zpos my) in *. set (b := 2 ^ 52 * 2 ^ s) in *.
  assert (Hb : 0 < b) by (unfold b; nia).
  assert (Blo : 2 ^ 52 <= rne a b) by (apply rne_ge; lia).
  assert (Bhi : rne a b <= 2 ^ 53) by (apply rne_le; lia).
  rewrite val_norm by lia.
  destruct (rne_spec a b Hb) as ((L & U) & _).
  set (M := rne a b) in *.
  unfold val; cbn [man expo].
  set (F := 2 ^ (ex + ey + 800)).
  assert (PF : 0 < F) by (apply pow2_pos; lia).
  assert (E1 : M * 2 ^ (ex + ey + 52 + s + 400) * 2 ^ 400 = M * b * F).
  { unfold b, F.
    rewrite <- !Z.mul_assoc. f_equal.
    rewrite !pow2_add by lia. f_equal. lia. }
  assert (E2 : Zpos mx * 2 ^ (ex + 400) * (Zpos my * 2 ^ (ey + 400)) = a * F).
  { unfold a, F.
    replace (ex + ey + 800) with ((ex + 400) + (ey + 400)) by lia.
    rewrite <- (pow2_add (ex + 400) (ey + 400)) by lia. ring. }
  rewrite E1, E2.
  assert (A1 : (2 ^ 53 - 1) * (M * b) <= 2 ^ 53 * a) by nia.
  assert (A2 : 2 ^ 53 * a <= (2 ^ 53 + 1) * (M * b)) by nia.
  split; nia.
Qed.

(** The progress value is [100 * wordIndex / tokenCount] up to the two
    roundings of the division and of the multiplication. *)
Lemma progressN_value (L n c : Z) :
  1 <= L < 2 ^ 53 -> 1 <= n < 2 ^ 52 -> 0 <= c < 2 ^ 53 ->
  val (wordIndexN L n c) = intValue (wordIndexN L n c) * 2 ^ 400
  /\ within_two_roundings (progressN L n c)
       (100 * intValue (wordIndexN L n c)) n.
Proof.
  intros HL Hn Hc.
  pose proof (pow2_pos 400 ltac:(lia)) as PS.
  destruct (quotient_nonneg L n HL Hn c Hc) as [Pq Eq].
  destruct (floor_nonneg _ Pq ltac:(lia)) as (Nk & Vk & Ek).
  fold (wordIndexN L n c) in Nk, Vk, Ek.
  assert (Hint : val (wordIndexN L n c)
                 = intValue (wordIndexN L n c) * 2 ^ 400).
  { unfold intValue. rewrite Vk at 2. now rewrite Z.div_mul by lia. }
  split; [exact Hint|].
  unfold within_two_roundings, progressN.
  pose proof (expo_of_Z n ltac:(lia)) as En.
  assert (Pn : pnormal (of_Z n)) by (apply of_Z_pnormal; lia).
  destruct hundred_pnormal as [Ph Eh].
  destruct Nk as [Hz|Pk].
  - rewrite Hz in *. rewrite div_zero_l, mul_zero_l by assumption.
    unfold intValue. change (val (S754_zero false)) with 0.
    rewrite Z.div_0_l by lia. lia.
  - assert (Ew : -52 <= expo (wordIndexN L n c) <= 54).
    { destruct (wordIndexN_nonneg L n HL Hn c Hc). assumption. }
    destruct (div_pnormal _ _ Pk Pn ltac:(lia)) as [Pr Er].
    destruct (div_val _ _ Pk Pn ltac:(lia) ltac:(lia)) as [D1 D2].
    destruct (mul_val _ _ Pr Ph ltac:(lia) ltac:(lia)) as [M1 M2].
    rewrite !val_of_Z in * by lia.
    rewrite Hint in D1, D2.
    set (k := intValue (wordIndexN L n c)) in *.
    set (R := val (div (wordIndexN L n c) (of_Z n))) in *.
    set (P := val (mul (div (wordIndexN L n c) (of_Z n)) (of_Z 100))) in *.
    set (sc := 2 ^ 400) in *.
    assert (D1' : (2 ^ 53 - 1) * (R * n) <= 2 ^ 53 * (k * sc)) by nia.
    assert (D2' : 2 ^ 53 * (k * sc) <= (2 ^ 53 + 1) * (R * n)) by nia.
    assert (M1' : (2 ^ 53 - 1) * P <= 2 ^ 53 * (R * 100)) by nia.
    assert (M2' : 2 ^ 53 * (R * 100) <= (2 ^ 53 + 1) * P) by nia.
    change ((2 ^ 53 - 1) ^ 2) with ((2 ^ 53 - 1) * (2 ^ 53 - 1)).
    change ((2 ^ 53 + 1) ^ 2) with ((2 ^ 53 + 1) * (2 ^ 53 + 1)).
    change (2 ^ 106) with (2 ^ 53 * 2 ^ 53).
    split; nia.
Qed.

(* ------------------------------------------------------------------ *)
(** ** Word-boundary progress within one utterance *)

Lemma split_go_length (inws : bool) (cur s : jsstring) :
  (1 <= List.length (split_go inws cur s)
   <= 1 + List.length (filter is_ws s))%nat.
Proof.
  revert inws cur. induction s as [|c s IH]; intros inws cur; simpl.
  - lia.
  - destruct (is_ws c); simpl.
    + destruct inws; simpl.
      * specialize (IH true cur). lia.
      * specialize (IH true []). lia.
    + specialize (IH false (c :: cur)). lia.
Qed.

Lemma filter_length_lt {A} (f : A -> bool) (l : list A) :
  forallb f l = false -> (List.length (filter f l) < List.length l)%nat.
Proof.
  induction l as [|a l IH]; simpl; [discriminate|].
  pose proof (filter_length_le f l) as Hle.
  destruct (f a); simpl; intros H; [specialize (IH H)|]; lia.
Qed.

(** A text that is not blank has at least one token and no more tokens
    than code units. *)
Lemma split_ws_length (s : jsstring) :
  trim s <> [] ->
  (1 <= List.length (split_ws s) <= List.length s)%nat.
Proof.
  intros Ht.
  assert (Hf : forallb is_ws s = false).
  { destruct (forallb is_ws s) eqn:E; [|reflexivity].
    apply trim_nil_iff in E. contradiction. }
  pose proof (split_go_length false [] s).
  pose proof (filter_length_lt is_ws s Hf).
  unfold split_ws. lia.
Qed.

Lemma progressPercent_progressN (txt : jsstring) (words : list jsstring)
  (c : Z) :
  progressPercent txt words c
  = progressN (Z.of_nat (List.length txt)) (Z.of_nat (List.length words)) c.
Proof. reflexivity. Qed.

(** Boundary events leave the words alone, so the progress values of a run
    of word-boundary events are the formula at each index. *)
Lemma progressTrace_map (u : Utterance) (idxs : list Z) (w : World) :
  progressTrace u idxs w
  = map (progressPercent (u_text u) (wordsRef (comp w))) idxs.
Proof.
  revert w. induction idxs as [|i idxs IH]; intros w; [reflexivity|].
  assert (E : JSString.eqb (js "word") (js "word") = true) by reflexivity.
  cbn [progressTrace]. rewrite IH.
  unfold onboundary. rewrite E. reflexivity.
Qed.

(** C2: within the utterance that play() starts on a text of fewer than
    2^52 code units, word-boundary events whose character indices are
    non-decreasing and lie in [0, textLength) produce progress values that
    are non-decreasing and lie in [0, 100]. *)
Theorem boundary_progress_monotone_bounded (w : World) (idxs : list Z) :
  trim (text (comp w)) <> [] ->
  isPaused (comp w) = false ->
  Z.of_nat (List.length (text (comp w))) < 2 ^ 52 ->
  Forall (fun c => 0 <= c < Z.of_nat (List.length (text (comp w)))) idxs ->
  Sorted Z.le idxs ->
  let u := mkPlayUtterance w in
  let ps := progressTrace u idxs (onstart u (handlePlay w)) in
  StronglySorted (fun p q => leb p q = true) ps
  /\ Forall (fun p => leb (of_Z 0) p = true /\ leb p (of_Z 100) = true) ps.
Proof.
  intros Ht Hp HL Hin Hs u ps.
  destruct (handlePlay_words w Ht Hp) as [Hw Hu].
  pose proof (split_ws_length (text (comp w)) Ht) as Hn.
  unfold ps. rewrite progressTrace_map.
  change (wordsRef (comp (onstart u (handlePlay w))))
    with (wordsRef (comp (handlePlay w))).
  unfold u. rewrite Hw, Hu.
  set (L := Z.of_nat (List.length (text (comp w)))) in *.
  set (n := Z.of_nat (List.length (split_ws (text (comp w))))).
  assert (BL : 1 <= L < 2 ^ 53) by lia.
  assert (Bn : 1 <= n < 2 ^ 52) by lia.
  apply Sorted_StronglySorted in Hs; [|intros x y z; apply Z.le_trans].
  split.
  - clear Hn. induction Hs as [|c cs Hcs IH Hall]; simpl.
    + constructor.
    + inversion Hin as [|? ? Hc Hin']; subst.
      constructor; [now apply IH|].
      rewrite Forall_forall in *. intros p Hp'.
      apply in_map_iff in Hp'. destruct Hp' as (c' & <- & Hc').
      rewrite !progressPercent_progressN. fold L n.
      specialize (Hall c' Hc'). specialize (Hin' c' Hc').
      apply progressN_mono; lia.
  - rewrite Forall_forall in *. intros p Hp'.
    apply in_map_iff in Hp'. destruct Hp' as (c & <- & Hc).
    specialize (Hin c Hc).
    rewrite progressPercent_progressN. fold L n. split.
    + apply progressN_lower; lia.
    + apply progressN_upper; lia.
Qed.

Lemma boundary_progress_monotone_bounded_witness :
  let ps := progressTrace helloUtterance [0; 3; 6; 6; 10]
              (onstart helloUtterance (handlePlay helloWorld)) in
  ps = [of_Z 0; of_Z 0; of_Z 50; of_Z 50; of_Z 50]
  /\ StronglySorted (fun p q => leb p q = true) ps
  /\ Forall (fun p => leb (of_Z 0) p = true /\ leb p (of_Z 100) = true) ps.
Proof.
  split; [reflexivity|].
  apply (boundary_progress_monotone_bounded helloWorld [0; 3; 6; 6; 10]).
  - discriminate.
  - reflexivity.
  - reflexivity.
  - repeat constructor; simpl; lia.
  - repeat constructor; lia.
Defined.

(* ------------------------------------------------------------------ *)
(** ** The word index against the exact quotient *)

Lemma specWordIndex_eq (L n c : Z) :
  0 < L -> 0 < n -> specWordIndex L n c = c * n / L.
Proof.
  intros HL Hn.
  destruct L as [|pL|pL]; try lia. destruct n as [|pn|pn]; try lia.
  unfold specWordIndex, Qround.Qfloor, QArith_base.Qdiv, QArith_base.Qmult,
    QArith_base.Qinv, QArith_base.inject_Z.
  cbn [QArith_base.Qnum QArith_base.Qden].
  rewrite Z.mul_1_r. cbn [QArith_base.Qnum QArith_base.Qden].
  rewrite !Pos.mul_1_l. reflexivity.
Qed.

(** The floor of a number below [2^53] is the integer below it. *)
Lemma floor_of_Z (x : number) :
  nonneg x -> -400 <= expo x -> val x < 2 ^ 53 * 2 ^ 400 ->
  floor x = of_Z (intValue x).
Proof.
  intros [->|Hx] He Hv; [reflexivity|].
  destruct x as [| | |[] m e]; try contradiction.
  unfold pnormal in Hx. cbn [expo] in He.
  unfold intValue, val in *; cbn [man expo] in *.
  pose proof (pow2_pos 400 ltac:(lia)) as PS.
  unfold floor.
  destruct (Z.leb_spec 0 e) as [H|H].
  - assert (e = 0).
    { destruct (Z.eq_dec e 0) as [|Hn]; [assumption|exfalso].
      assert (2 * 2 ^ 400 <= 2 ^ (e + 400)).
      { rewrite <- Z.pow_succ_r by lia. apply Z.pow_le_mono_r; lia. }
      nia. }
    subst e. rewrite Z.add_0_l, Z.div_mul by lia.
    destruct (of_Z_pos (Zpos m) ltac:(lia)) as (E & _ & _).
    rewrite E, (Zdigits2_unique (Zpos m) 53) by lia.
    change (2 ^ (53 - 53)) with 1. rewrite Z.mul_1_r. reflexivity.
  - f_equal. unfold floorZ, cond_Zopp.
    rewrite Z.shiftl_div_pow2 by lia.
    replace (2 ^ 400) with (2 ^ (- e) * 2 ^ (e + 400))
      by (rewrite pow2_add by lia; f_equal; lia).
    rewrite Z.div_mul_cancel_r; [reflexivity | |].
    + pose proof (pow2_pos (- e) ltac:(lia)). lia.
    + pose proof (pow2_pos (e + 400) ltac:(lia)). lia.
Qed.

(** How far the rounded quotient [charIndex / (textLength / tokenCount)]
    can be from the exact [charIndex * tokenCount / textLength]. *)
Lemma quotient_near_exact (L n c : Z) :
  1 <= n -> n <= L -> n * L < 2 ^ 52 -> 0 <= c < L ->
  let q := div (of_Z c) (div (of_Z L) (of_Z n)) in
  let F := c * n / L in
  val q < (F + 1) * 2 ^ 400
  /\ (F - 1) * 2 ^ 400 <= val q
  /\ ((c * n) mod L <> 0 -> F * 2 ^ 400 <= val q)
  /\ 0 <= F <= n - 1.
Proof.
  intros Hn HnL Hprod Hc q F.
  assert (HL : 1 <= L < 2 ^ 53) by nia.
  assert (Hn' : 1 <= n < 2 ^ 52) by nia.
  pose proof (pow2_pos 400 ltac:(lia)) as PS.
  pose proof (Z.div_mod (c * n) L ltac:(lia)) as Ediv.
  pose proof (Z.mod_pos_bound (c * n) L ltac:(lia)) as Bmod.
  fold F in Ediv.
  assert (HF : 0 <= F <= n - 1).
  { split; [apply Z.div_pos; nia|].
    assert (F < n); [|lia]. apply Z.div_lt_upper_bound; nia. }
  destruct (Z.eq_dec c 0) as [Hc0|Hc0].
  - assert (Hq : q = S754_zero false).
    { unfold q. subst c. rewrite of_Z_0.
      apply div_zero_l.
      destruct (charsPerWord_pnormal L n HL Hn'). assumption. }
    assert (F = 0) by (unfold F; subst c; reflexivity).
    rewrite Hq. change (val (S754_zero false)) with 0.
    repeat split; lia.
  - destruct (charsPerWord_pnormal L n HL Hn') as [Pd Ed].
    pose proof (expo_of_Z c ltac:(lia)) as Ec.
    pose proof (expo_of_Z L ltac:(lia)) as EL.
    pose proof (expo_of_Z n ltac:(lia)) as En.
    destruct (div_val (of_Z L) (of_Z n)) as [A1 A2];
      try (apply of_Z_pnormal; lia); try lia.
    destruct (div_val (of_Z c) (div (of_Z L) (of_Z n))) as [B1 B2];
      try (apply of_Z_pnormal; lia); try assumption; try lia.
    rewrite !val_of_Z in * by lia.
    assert (PD : 0 < val (div (of_Z L) (of_Z n)))
      by (apply val_pos; [assumption | lia]).
    fold q in B1, B2.
    set (sc := 2 ^ 400) in *.
    set (D := val (div (of_Z L) (of_Z n))) in *.
    set (Q := val q) in *.
    set (r := (c * n) mod L) in *.
    assert (A1' : (2 ^ 53 - 1) * (D * n) <= 2 ^ 53 * (L * sc)) by nia.
    assert (A2' : 2 ^ 53 * (L * sc) <= (2 ^ 53 + 1) * (D * n)) by nia.
    assert (B1' : (2 ^ 53 - 1) * (Q * D) <= 2 ^ 53 * (c * sc * sc)) by nia.
    assert (B2' : 2 ^ 53 * (c * sc * sc) <= (2 ^ 53 + 1) * (Q * D)) by nia.
    set (X := D * n) in *.
    assert (PX : 0 < X) by (unfold X; nia).
    split; [|split; [|split]].
    + (* upper bound *)
      destruct (Z_lt_le_dec Q ((F + 1) * sc)) as [|Hge]; [assumption|exfalso].
      assert (U1 : (2 ^ 53 - 1) * ((F + 1) * sc * D)
                   <= 2 ^ 53 * (c * sc * sc)).
      { assert ((F + 1) * sc * D <= Q * D) by nia. nia. }
      assert (U2 : (2 ^ 53 - 1) * ((F + 1) * D) <= 2 ^ 53 * (c * sc)) by nia.
      assert (U3 : (2 ^ 53 - 1) * ((F + 1) * X)
                   <= 2 ^ 53 * ((c * n) * sc)).
      { unfold X. nia. }
      assert (U4 : 2 ^ 53 * ((c * n) * sc)
                   <= (F + 1) * (2 ^ 53 * (L * sc)) - 2 ^ 53 * sc) by nia.
      assert (U5 : 2 ^ 53 * sc <= 2 * ((F + 1) * X)) by nia.
      assert (U6 : (2 ^ 53 - 1) * (2 ^ 53 * sc)
                   <= 2 * (F + 1) * (2 ^ 53 * (L * sc))) by nia.
      assert (U7 : 2 ^ 53 - 1 <= 2 * ((F + 1) * L)) by nia.
      nia.
    + (* lower bound, in all cases *)
      destruct (Z_lt_le_dec Q ((F - 1) * sc)) as [Hlt|]; [exfalso|assumption].
      assert (F >= 2) by nia.
      assert (V1 : 2 ^ 53 * (c * sc * sc)
                   <= (2 ^ 53 + 1) * ((F - 1) * sc * D)).
      { assert (Q * D <= (F - 1) * sc * D) by nia. nia. }
      assert (V2 : 2 ^ 53 * (c * sc) <= (2 ^ 53 + 1) * ((F - 1) * D)) by nia.
      assert (V3 : 2 ^ 53 * ((c * n) * sc)
                   <= (2 ^ 53 + 1) * ((F - 1) * X)).
      { unfold X. nia. }
      assert (V4 : F * (2 ^ 53 * (L * sc)) <= 2 ^ 53 * ((c * n) * sc)) by nia.
      assert (V5 : (2 ^ 53 - 1) * (F * (2 ^ 53 * (L * sc)))
                   <= (2 ^ 53 + 1) * ((F - 1) * (2 ^ 53 * (L * sc)))) by nia.
      assert (PY : 0 < 2 ^ 53 * (L * sc)) by nia.
      nia.
    + (* lower bound when the exact quotient is not an integer *)
      intros Hr.
      destruct (Z_lt_le_dec Q (F * sc)) as [Hlt|]; [exfalso|assumption].
      assert (F >= 1) by nia.
      assert (W1 : 2 ^ 53 * (c * sc * sc) <= (2 ^ 53 + 1) * (F * sc * D)).
      { assert (Q * D <= F * sc * D) by nia. nia. }
      assert (W2 : 2 ^ 53 * (c * sc) <= (2 ^ 53 + 1) * (F * D)) by nia.
      assert (W3 : 2 ^ 53 * ((c * n) * sc) <= (2 ^ 53 + 1) * (F * X)).
      { unfold X. nia. }
      assert (W4 : F * (2 ^ 53 * (L * sc)) + 2 ^ 53 * sc
                   <= 2 ^ 53 * ((c * n) * sc)) by nia.
      assert (W5 : (2 ^ 53 - 1) * (F * (2 ^ 53 * (L * sc)) + 2 ^ 53 * sc)
                   <= (2 ^ 53 + 1) * (F * (2 ^ 53 * (L * sc)))) by nia.
      assert (W6 : (2 ^ 53 - 1) * sc <= 2 * (F * (L * sc))) by nia.
      assert (W7 : 2 ^ 53 - 1 <= 2 * (F * L)) by nia.
      nia.
    + exact HF.
Qed.

(** The word index against the exact quotient, for a text that is not
    blank. *)
Lemma wordIndex_bounds_aux (txt : jsstring) (charIndex : Z) :
  trim txt <> [] ->
  Z.of_nat (List.length txt) < 2 ^ 26 ->
  0 <= charIndex < Z.of_nat (List.length txt) ->
  let L := Z.of_nat (List.length txt) in
  let n := Z.of_nat (List.length (split_ws txt)) in
  let F := charIndex * n / L in
  exists k,
    wordIndex txt (split_ws txt) charIndex = of_Z k
    /\ F - 1 <= k <= F
    /\ ((charIndex * n) mod L <> 0 -> k = F)
    /\ 0 <= k <= n - 1.
Proof.
  intros Ht HL Hc L n F.
  pose proof (split_ws_length txt Ht) as Hn.
  fold L in HL, Hc.
  assert (Hn1 : 1 <= n) by (unfold n; lia).
  assert (HnL : n <= L) by (unfold n, L; lia).
  assert (Hprod : n * L < 2 ^ 52).
  { change (2 ^ 52) with (2 ^ 26 * 2 ^ 26). nia. }
  destruct (quotient_near_exact L n charIndex Hn1 HnL Hprod Hc)
    as (U & Lo & Lo' & HF).
  fold F in U, Lo, Lo', HF.
  pose proof (pow2_pos 400 ltac:(lia)) as PS.
  destruct (quotient_nonneg L n ltac:(lia) ltac:(lia) charIndex ltac:(lia))
    as [Pq Eq].
  set (q := div (of_Z charIndex) (div (of_Z L) (of_Z n))) in *.
  assert (Hq0 : 0 <= val q).
  { destruct Pq as [->|Pq]; [unfold val; simpl; lia|].
    pose proof (val_pos q Pq ltac:(lia)). lia. }
  exists (intValue q).
  assert (Hk1 : intValue q < F + 1).
  { unfold intValue. apply Z.div_lt_upper_bound; lia. }
  assert (Hk0 : 0 <= intValue q).
  { unfold intValue. apply Z.div_pos; lia. }
  split; [|split; [|split]].
  - change (wordIndex txt (split_ws txt) charIndex) with (floor q).
    apply floor_of_Z; [assumption | lia | nia].
  - split; [|lia]. unfold intValue. apply Z.div_le_lower_bound; lia.
  - intros Hr. specialize (Lo' Hr).
    assert (F <= intValue q); [|lia].
    unfold intValue. apply Z.div_le_lower_bound; lia.
  - lia.
Qed.

(** C1, as the code has it: for the utterance that play() starts, a
    word-boundary event at [charIndex] sets the progress to
    [(wordIndex / tokenCount) * 100] with
    [wordIndex = floor(charIndex / (textLength / tokenCount))], both
    evaluated in binary64 over the white-space split of the played text.
    For a text of fewer than 2^26 code units and an index inside it, the
    word index so computed is the exact
    [floor(charIndex / (textLength / tokenCount))], except that it can be
    one less when [charIndex * tokenCount / textLength] is a whole number;
    it stays below the token count, and the progress is
    [100 * wordIndex / tokenCount] for the computed index up to the
    roundings of the division and the multiplication.  For "Hello world"
    the boundary events at 0 and 6 give the progress values 0 and 50, and
    after the end callback the state is Idle with progress 100. *)
Theorem boundary_progress_formula (w : World) (charIndex : Z) :
  trim (text (comp w)) <> [] ->
  isPaused (comp w) = false ->
  let u := mkPlayUtterance w in
  let playing := onstart u (handlePlay w) in
  let L := Z.of_nat (List.length (text (comp w))) in
  let textLength := length_num (text (comp w)) in
  let tokens := split_ws (text (comp w)) in
  let n := Z.of_nat (List.length tokens) in
  let tokenCount := length_num tokens in
  let wordIdx := floor (div (of_Z charIndex) (div textLength tokenCount)) in
  let after := onboundary u (js "word") charIndex playing in
  wordsRef (comp playing) = tokens
  /\ progress (comp after) = mul (div wordIdx tokenCount) (of_Z 100)
  /\ (L < 2 ^ 26 -> 0 <= charIndex < L ->
      exists k,
        wordIdx = of_Z k
        /\ specWordIndex L n charIndex - 1 <= k
           <= specWordIndex L n charIndex
        /\ ((charIndex * n) mod L <> 0 -> k = specWordIndex L n charIndex)
        /\ 0 <= k <= n - 1
        /\ within_two_roundings (progress (comp after)) (100 * k) n)
  /\ (let hello := run [EvPlay; EvStart helloUtterance] helloWorld in
      wordsRef (comp hello) = [js "Hello"; js "world"]
      /\ playbackState (comp hello) = Playing
      /\ progressTrace helloUtterance [0; 6] hello = [of_Z 0; of_Z 50]
      /\ playbackState
           (comp (run [EvBoundary helloUtterance (js "word") 0;
                       EvBoundary helloUtterance (js "word") 6;
                       EvEnd helloUtterance] hello)) = Idle
      /\ progress
           (comp (run [EvBoundary helloUtterance (js "word") 0;
                       EvBoundary helloUtterance (js "word") 6;
                       EvEnd helloUtterance] hello)) = of_Z 100).
Proof.
  intros Ht Hp u playing L textLength tokens n tokenCount wordIdx after.
  destruct (handlePlay_words w Ht Hp) as [Hw Hu].
  assert (Hprog : progress (comp after)
                  = mul (div wordIdx tokenCount) (of_Z 100)).
  { assert (E : JSString.eqb (js "word") (js "word") = true) by reflexivity.
    unfold after, onboundary. rewrite E.
    change (progressPercent (u_text u) (wordsRef (comp (handlePlay w)))
              charIndex = mul (div wordIdx tokenCount) (of_Z 100)).
    unfold u. rewrite Hw, Hu. reflexivity. }
  split; [exact Hw|]. split; [exact Hprog|]. split.
  - intros HL Hc. rewrite Hprog.
    pose proof (split_ws_length (text (comp w)) Ht) as Hn.
    fold tokens in Hn.
    assert (Bn : 1 <= n <= L) by (unfold n, L; lia).
    destruct (wordIndex_bounds_aux (text (comp w)) charIndex Ht HL Hc)
      as (k & Ek & Hk1 & Hk2 & Hk3).
    fold tokens L n in Ek, Hk1, Hk2, Hk3.
    change (wordIndex (text (comp w)) tokens charIndex) with wordIdx in Ek.
    destruct (progressN_value L n charIndex) as [_ Hw2]; try lia.
    change (progressN L n charIndex)
      with (mul (div wordIdx tokenCount) (of_Z 100)) in Hw2.
    change (wordIndexN L n charIndex) with wordIdx in Hw2.
    assert (Hki : intValue wordIdx = k).
    { pose proof (pow2_pos 400 ltac:(lia)) as PS.
      unfold intValue. rewrite Ek, val_of_Z by lia. apply Z.div_mul. lia. }
    rewrite Hki in Hw2.
    rewrite specWordIndex_eq by lia.
    exists k. split; [exact Ek|]. split; [exact Hk1|].
    split; [exact Hk2|]. split; [exact Hk3 | exact Hw2].
  - vm_compute. repeat split.
Qed.

Lemma boundary_progress_formula_witness :
  let after := onboundary helloUtterance (js "word") 6
                 (onstart helloUtterance (handlePlay helloWorld)) in
  let wordIdx := floor (div (of_Z 6) (div (of_Z 11) (of_Z 2))) in
  progress (comp after) = mul (div wordIdx (of_Z 2)) (of_Z 100)
  /\ wordIdx = of_Z 1
  /\ specWordIndex 11 2 6 = 1
  /\ exists k,
       wordIdx = of_Z k
       /\ specWordIndex 11 2 6 - 1 <= k <= specWordIndex 11 2 6
       /\ ((6 * 2) mod 11 <> 0 -> k = specWordIndex 11 2 6)
       /\ 0 <= k <= 2 - 1
       /\ within_two_roundings (progress (comp after)) (100 * k) 2.
Proof.
  assert (Ht : trim (text (comp helloWorld)) <> []) by discriminate.
  destruct (boundary_progress_formula helloWorld 6 Ht eq_refl)
    as (_ & H1 & H2 & _).
  split; [exact H1|]. split; [reflexivity|]. split; [reflexivity|].
  apply H2; [reflexivity | split; [discriminate | reflexivity]].
Defined.

(** C1, a case against the claim as stated: in the 36 code units and 14
    words of [alphabetText], the word boundary at index 18 has the exact
    word index [floor(18 / (36 / 14)) = 7] and the exact progress
    [100 * 7 / 14 = 50]; the code computes the word index 6 and a progress
    below 43. *)
Lemma boundary_formula_off_by_one :
  let u := mkPlayUtterance alphabetWorld in
  let after := onboundary u (js "word") 18
                 (onstart u (handlePlay alphabetWorld)) in
  Z.of_nat (List.length alphabetText) = 36
  /\ Z.of_nat (List.length (split_ws alphabetText)) = 14
  /\ specWordIndex 36 14 18 = 7
  /\ 100 * specWordIndex 36 14 18 = 50 * 14
  /\ wordIndex alphabetText (split_ws alphabetText) 18 = of_Z 6
  /\ wordIndex alphabetText (split_ws alphabetText) 18
     <> of_Z (specWordIndex 36 14 18)
  /\ progress (comp after) <> of_Z 50
  /\ ltb (progress (comp after)) (of_Z 43) = true.
Proof.
  do 5 (split; [reflexivity|]).
  split; [vm_compute; discriminate|].
  split; [vm_compute; discriminate | reflexivity].
Qed.
